(** * Real-time transcription demo client: model and verification

    A shallow embedding of the two source files of the repository:

    - [src/lib/api.ts]   : [fetchWebSocketToken], the HTTP token fetch;
    - the client component ([TranscriptionClient]): [initializeTranscription],
      the WebSocket handlers, the [onaudioprocess] PCM conversion,
      [stopTranscription] and [clearTranscript].

    Part I holds the model (modules [Pcm], [JS], [Api], [Client]); Part II the
    theorems C1-C10 about it, followed by further properties X1-X17.  Console
    logging changes no state and is modelled only where evaluating its
    arguments can throw.  Strings are sequences of bytes. *)

From Stdlib Require Import ZArith QArith Lia Bool List String Ascii Zpower.
From Stdlib Require Import DecimalString SpecFloat.
From stdpp Require Import base list.
Import ListNotations.
Local Open Scope Z_scope.
Set Warnings "-register-all".

(* ===================================================================== *)
(** * Part I: the model                                                   *)
(* ===================================================================== *)

(** ** The audio path: Float32 samples to 16-bit PCM *)

Module Pcm.

(** A JavaScript Number is an IEEE 754 binary64; a [Float32Array] element a
    binary32.  Both are [spec_float] data of the Standard Library, whose
    operations ([SFmul], [SFcompare], [binary_round]) take the precision and
    the exponent bound of the format. *)
Definition prec : Z := 53.
Definition emax : Z := 1024.
Definition f32_prec : Z := 24.
Definition f32_emax : Z := 128.

(** An integer literal ([1], [-1], [0x7FFF]) as a Number. *)
Definition Number_of_Z (z : Z) : spec_float := binary_normalize prec emax z 0 false.

(** Reading [inputData[i]]: the binary32 element widened to a Number. *)
Definition f32_to_Number (x : spec_float) : spec_float :=
  match x with
  | S754_finite s m e => binary_round prec emax s m e
  | _ => x
  end.

(** [Math.min] and [Math.max] of two Numbers: [NaN] when either is, and
    [-0] below [+0]. *)
Definition Math_min (a b : spec_float) : spec_float :=
  match a, b with
  | S754_nan, _ | _, S754_nan => S754_nan
  | S754_zero sa, S754_zero sb => S754_zero (sa || sb)
  | _, _ => if SFltb b a then b else a
  end.

Definition Math_max (a b : spec_float) : spec_float :=
  match a, b with
  | S754_nan, _ | _, S754_nan => S754_nan
  | S754_zero sa, S754_zero sb => S754_zero (sa && sb)
  | _, _ => if SFltb a b then b else a
  end.

(** The integer part of a Number, toward zero; [0] for [NaN], the zeros and
    the infinities, as [ToInt16] takes them. *)
Definition truncate (x : spec_float) : Z :=
  match x with
  | S754_finite s m e =>
      let a := match e with
               | Zneg k => Z.shiftr (Zpos m) (Zpos k)
               | _ => Z.shiftl (Zpos m) e
               end in
      if s then - a else a
  | _ => 0
  end.

(** [ToInt16], the conversion of a store into an [Int16Array]. *)
Definition ToInt16 (x : spec_float) : Z :=
  let int16bit := (truncate x) mod 2 ^ 16 in
  if 2 ^ 15 <=? int16bit then int16bit - 2 ^ 16 else int16bit.

(** The three literals as binary64 data: [1] and [-1] are [2^52 * 2^-52]
    with either sign, [0x7FFF] is [32767 * 2^38 * 2^-38]. *)
Definition one : spec_float := S754_finite false 4503599627370496 (-52).
Definition minus_one : spec_float := S754_finite true 4503599627370496 (-52).
Definition x7FFF : spec_float := S754_finite false 9006924376834048 (-38).

(** One iteration of the loop body:
    [clamped = Math.max(-1, Math.min(1, inputData[i]));
     pcmData[i] = clamped * 0x7FFF]. *)
Definition convert_sample (s : spec_float) : Z :=
  let clamped :=
    Math_max (Number_of_Z (-1)) (Math_min (Number_of_Z 1) (f32_to_Number s)) in
  ToInt16 (SFmul prec emax clamped (Number_of_Z 32767)).

(** The [for] loop over [i], storing into [pcmData] in place. *)
Fixpoint fill (inputData : list spec_float) (pcmData : list Z) (i remaining : nat)
  : list Z :=
  match remaining with
  | O => pcmData
  | S r =>
      match inputData !! i with
      | Some x => fill inputData (<[i := convert_sample x]> pcmData) (S i) r
      | None => pcmData
      end
  end.

(** [new Int16Array(inputData.length)] (zero-filled), then the loop. *)
Definition to_pcm (inputData : list spec_float) : list Z :=
  fill inputData (replicate (length inputData) 0) 0 (length inputData).

(** The two bytes of an [Int16Array] element in its buffer: two's complement,
    low byte first (typed arrays use the platform's byte order, little-endian
    on the platforms browsers run on). *)
Definition Int16_bytes (v : Z) : list Z :=
  let u := v mod 2 ^ 16 in [u mod 256; u / 256].

(** [pcmData.buffer]. *)
Definition buffer (pcmData : list Z) : list Z := flat_map Int16_bytes pcmData.

(** Reading a buffer back as little-endian signed 16-bit samples. *)
Fixpoint decode (bytes : list Z) : list Z :=
  match bytes with
  | lo :: hi :: rest =>
      let u := lo + 256 * hi in
      (if 2 ^ 15 <=? u then u - 2 ^ 16 else u) :: decode rest
  | _ => []
  end.

(** The binary32 data [1.0] and [-1.0]. *)
Definition f32_one : spec_float := S754_finite false 8388608 (-23).
Definition f32_minus_one : spec_float := S754_finite true 8388608 (-23).

(** *** The formula of the specification, over exact rationals *)

Inductive sample_value := NegInfinity | Real (q : Q) | PosInfinity.

(** The rational a finite datum denotes: [(-1)^s * m * 2^e]. *)
Definition F2Q (x : spec_float) : Q :=
  match x with
  | S754_finite s m e =>
      let n := if s then Zneg m else Zpos m in
      match e with
      | Zneg k => n # (2 ^ k)
      | _ => inject_Z (n * 2 ^ e)
      end
  | _ => 0%Q
  end.

(** [None] for [NaN], which denotes no number. *)
Definition value_of (x : spec_float) : option sample_value :=
  match x with
  | S754_nan => None
  | S754_infinity s => Some (if s then NegInfinity else PosInfinity)
  | _ => Some (Real (F2Q x))
  end.

Definition clamp (v : sample_value) (lo hi : Q) : Q :=
  match v with
  | NegInfinity => lo
  | PosInfinity => hi
  | Real q => if Qle_bool q lo then lo else if Qle_bool hi q then hi else q
  end.

Definition round_toward_zero (q : Q) : Z := Z.quot (Qnum q) (Zpos (Qden q)).

(** [sample_i16 = round_toward_zero(clamp(sample_f32, -1.0, 1.0) * 32767)]. *)
Definition spec_sample_i16 (v : sample_value) : Z :=
  round_toward_zero (clamp v (-1) 1 * 32767)%Q.

End Pcm.

(** ** JavaScript values, as [JSON.parse] produces them *)

Module JS.

(** A Number is an IEEE 754 binary64 datum. *)
Inductive value :=
| VUndefined
| VNull
| VBool (b : bool)
| VNum (x : spec_float)
| VStr (s : string)
| VArr (xs : list value)
| VObj (fields : list (string * value)).

(** Thrown values are [Error] objects: a name and a message. *)
Record JsError := mkError { name : string; message : string }.

(** The outcome of a call that may throw (or of an awaited promise). *)
Inductive result (A : Type) :=
| Ok (a : A)
| Threw (e : JsError).
Arguments Ok {A} a.
Arguments Threw {A} e.

Definition fails {A : Type} (r : result A) : bool :=
  match r with Ok _ => false | Threw _ => true end.

Definition is_empty (s : string) : bool :=
  match s with EmptyString => true | String _ _ => false end.

(** [ToBoolean]: the zeros and [NaN] are the falsy Numbers. *)
Definition truthy (v : value) : bool :=
  match v with
  | VUndefined | VNull => false
  | VBool b => b
  | VNum x => match x with S754_zero _ | S754_nan => false | _ => true end
  | VStr s => negb (is_empty s)
  | VArr _ | VObj _ => true
  end.

Definition nullish (v : value) : bool :=
  match v with VUndefined | VNull => true | _ => false end.

Fixpoint lookup (k : string) (fields : list (string * value)) : value :=
  match fields with
  | [] => VUndefined
  | (k', v) :: rest => if String.eqb k k' then v else lookup k rest
  end.

(** The object has an own property of that name. *)
Fixpoint has_key (k : string) (fields : list (string * value)) : bool :=
  match fields with
  | [] => false
  | (k', _) :: rest => String.eqb k k' || has_key k rest
  end.

Definition digit_of (c : ascii) : option nat :=
  let n := nat_of_ascii c in
  if ((48 <=? n) && (n <=? 57))%nat then Some (n - 48)%nat else None.

Fixpoint digits_value (s : string) (acc : nat) : option nat :=
  match s with
  | EmptyString => Some acc
  | String c rest =>
      match digit_of c with
      | Some d => digits_value rest (10 * acc + d)%nat
      | None => None
      end
  end.

(** A property key that is a canonical array index: decimal digits with no
    leading zero. *)
Definition index_of_key (k : string) : option nat :=
  match k with
  | EmptyString => None
  | String c rest =>
      if Ascii.eqb c "0"%char
      then (if is_empty rest then Some 0%nat else None)
      else digits_value k 0
  end.

(** A length as a Number. *)
Definition Number_of_nat (n : nat) : spec_float := Pcm.Number_of_Z (Z.of_nat n).

(** Member access [v.k] / [v[k]]: [None] is the [TypeError] of reading a
    property of [null] or [undefined].  Own properties only (indices and
    [length] of arrays and strings, the fields of objects): the inherited
    methods of the built-in prototypes are functions, which this value type
    does not hold, and no key the code reads names one. *)
Definition get (v : value) (k : string) : option value :=
  match v with
  | VUndefined | VNull => None
  | VBool _ | VNum _ => Some VUndefined
  | VObj fields => Some (lookup k fields)
  | VArr xs =>
      Some match index_of_key k with
           | Some i => nth i xs VUndefined
           | None => if String.eqb k "length" then VNum (Number_of_nat (length xs))
                     else VUndefined
           end
  | VStr s =>
      Some match index_of_key k with
           | Some i => match String.get i s with
                       | Some c => VStr (String c EmptyString)
                       | None => VUndefined
                       end
           | None => if String.eqb k "length"
                     then VNum (Number_of_nat (String.length s))
                     else VUndefined
           end
  end.

(** Optional chaining [v?.k]: [undefined] when [v] is nullish. *)
Definition opt_get (v : value) (k : string) : value :=
  match get v k with
  | Some x => x
  | None => VUndefined
  end.

(** [String.prototype.includes]. *)
Fixpoint includes (needle hay : string) : bool :=
  String.prefix needle hay
  || match hay with
     | EmptyString => false
     | String _ rest => includes needle rest
     end.

(** The decimal digits of an integer: how a template literal prints an HTTP
    status code. *)
Definition string_of_Z (z : Z) : string := NilZero.string_of_int (Z.to_int z).

(** *** What the engine supplies *)

(** The [TypeError]s the code can raise: reading a property of [null] or
    [undefined], calling what is not a function, and converting an object
    that has no usable [toString] to a string. *)
Inductive type_error :=
| ReadOfNullish (base : value) (key : string)
| NotAFunction (callee : string)
| NotPrimitive.

(** [Number::toString] (the shortest decimal that reads back as the same
    Number, in exponent form from 1e21 on), [Date.parse] (the time value of a
    date string in ms, [None] for [NaN], an invalid date) and the wording of
    the messages of [TypeError]s are the engine's. *)
Record Engine := {
  Number_toString : spec_float -> string;
  Date_parse : string -> option Z;
  TypeError_message : type_error -> string
}.

Definition TypeError (E : Engine) (t : type_error) : JsError :=
  mkError "TypeError" (TypeError_message E t).

(** *** [JSON.stringify] *)

Definition hex_digit (n : nat) : ascii :=
  ascii_of_nat (if (n <? 10)%nat then 48 + n else 87 + n)%nat.

Definition dquote : ascii := ascii_of_nat 34.
Definition backslash : ascii := ascii_of_nat 92.

Definition quote_char (c : ascii) : string :=
  let n := nat_of_ascii c in
  let esc (x : ascii) := String backslash (String x EmptyString) in
  if (n =? 34)%nat then esc dquote
  else if (n =? 92)%nat then esc backslash
  else if (n =? 8)%nat then esc "b"%char
  else if (n =? 9)%nat then esc "t"%char
  else if (n =? 10)%nat then esc "n"%char
  else if (n =? 12)%nat then esc "f"%char
  else if (n =? 13)%nat then esc "r"%char
  else if (n <? 32)%nat
       then String backslash
              (String "u" (String "0" (String "0"
                 (String (hex_digit (n / 16)) (String (hex_digit (n mod 16)) EmptyString)))))
  else String c EmptyString.

Fixpoint quote_chars (s : string) : string :=
  match s with
  | EmptyString => EmptyString
  | String c rest => (quote_char c ++ quote_chars rest)%string
  end.

Definition quote (s : string) : string :=
  String dquote (quote_chars s ++ String dquote EmptyString)%string.

Fixpoint join (sep : string) (parts : list string) : string :=
  match parts with
  | [] => EmptyString
  | [p] => p
  | p :: rest => (p ++ sep ++ join sep rest)%string
  end.

Section WithEngine.
Variable E : Engine.

(** [None] is the [undefined] that [JSON.stringify(undefined)] returns.  An
    [undefined] array element prints as [null]; an [undefined] field is
    left out; a Number that is not finite prints as [null]. *)
Fixpoint stringify (v : value) : option string :=
  match v with
  | VUndefined => None
  | VNull => Some "null"%string
  | VBool b => Some (if b then "true" else "false")%string
  | VNum x =>
      Some match x with
           | S754_nan | S754_infinity _ => "null"%string
           | _ => Number_toString E x
           end
  | VStr s => Some (quote s)
  | VArr xs =>
      let items :=
        (fix go (l : list value) : list string :=
           match l with
           | [] => []
           | x :: rest =>
               match stringify x with
               | Some t => t
               | None => "null"%string
               end :: go rest
           end) xs in
      Some ("[" ++ join "," items ++ "]")%string
  | VObj fields =>
      let items :=
        (fix go (l : list (string * value)) : list string :=
           match l with
           | [] => []
           | (k, x) :: rest =>
               match stringify x with
               | Some t => (quote k ++ ":" ++ t)%string :: go rest
               | None => go rest
               end
           end) fields in
      Some ("{" ++ join "," items ++ "}")%string
  end.

(** [ToString], as [encodeURIComponent] applies it to its argument.  An
    array prints its elements joined by commas, [null] and [undefined]
    elements as nothing.  An object goes through [toString]: the inherited
    one gives [[object Object]]; an own property of that name, which in a
    parsed body is no function, hides it, and the conversion throws. *)
Fixpoint ToString (v : value) : result string :=
  match v with
  | VUndefined => Ok "undefined"%string
  | VNull => Ok "null"%string
  | VBool b => Ok (if b then "true" else "false")%string
  | VNum x => Ok (Number_toString E x)
  | VStr s => Ok s
  | VArr xs =>
      let items :=
        (fix go (l : list value) : result (list string) :=
           match l with
           | [] => Ok []
           | x :: rest =>
               match (if nullish x then Ok EmptyString else ToString x) with
               | Threw e => Threw e
               | Ok t =>
                   match go rest with
                   | Threw e => Threw e
                   | Ok ts => Ok (t :: ts)
                   end
               end
           end) xs in
      match items with
      | Ok ts => Ok (join "," ts)
      | Threw e => Threw e
      end
  | VObj fields =>
      if has_key "toString" fields then Threw (TypeError E NotPrimitive)
      else Ok "[object Object]"%string
  end.

(** [TimeClip] of a Number: the time value of a date, [None] for [NaN]. *)
Definition TimeClip (x : spec_float) : option Z :=
  match x with
  | S754_zero _ => Some 0
  | S754_finite _ _ _ =>
      let t := Pcm.truncate x in
      if Z.abs t <=? 8640000000000000 then Some t else None
  | _ => None
  end.

(** The time value of [new Date(v)]: a string is parsed, an object is first
    converted to a string, anything else is taken as a Number of
    milliseconds. *)
Definition New_Date (v : value) : result (option Z) :=
  match v with
  | VUndefined => Ok None
  | VNull => Ok (Some 0)
  | VBool b => Ok (Some (if b then 1 else 0))
  | VNum x => Ok (TimeClip x)
  | VStr s => Ok (Date_parse E s)
  | VArr _ | VObj _ =>
      match ToString v with
      | Ok s => Ok (Date_parse E s)
      | Threw e => Threw e
      end
  end.

End WithEngine.

(** String concatenation of a possibly [undefined] string. *)
Definition to_display (o : option string) : string :=
  match o with
  | Some s => s
  | None => "undefined"%string
  end.

End JS.

(** ** [src/lib/api.ts]: the token fetch *)

Module Api.
Import JS.

(** What the code reads of a [Response]: the status line, the
    [content-type] header ([None] when [headers.get] returns [null]), and
    the outcome of the two body readers ([None] when the promise of
    [response.json()] / [response.text()] rejects, with the error it
    rejects with for [json], which the success path awaits unguarded). *)
Record Response := {
  status : Z;
  statusText : string;
  content_type : option string;
  json : result value;
  text : option string
}.

(** [response.ok]: the status is in the range 200-299. *)
Definition ok (r : Response) : bool := (200 <=? status r) && (status r <=? 299).

Record Request := {
  req_url : string;
  req_method : string;
  req_headers : list (string * string);
  req_body : string
}.

(** Lines 75-80: the success log evaluates
    [data.access_token?.substring(0, 20)] inside the [try].  Reading
    [access_token] of [null] throws; a nullish [access_token] stops the
    chain; on a string [substring] is the method; on anything else it is no
    function (on a Number or a boolean it is [undefined], on a parsed array
    or object [undefined] or a value that is no function) and the call
    throws.  [Some] is the [TypeError] thrown. *)
Definition success_log (data : value) : option type_error :=
  match get data "access_token" with
  | None => Some (ReadOfNullish data "access_token")
  | Some access_token =>
      if nullish access_token then None
      else match access_token with
           | VStr _ => None
           | _ => Some (NotAFunction "data.access_token?.substring")
           end
  end.

Section Fetch.

(** The engine, [process.env.NEXT_PUBLIC_API_BASE_URL] and
    [process.env.NEXT_PUBLIC_BEARER_TOKEN] ([None] when unset), and the
    network behind [fetch]. *)
Variable E : Engine.
Variable env_API_BASE_URL : option string.
Variable env_BEARER_TOKEN : option string.
Variable fetch : Request -> result Response.

(** [a || b] on an optional string: [b] when [a] is undefined or empty. *)
Definition or_else (a : option string) (b : string) : string :=
  match a with
  | Some s => if is_empty s then b else s
  | None => b
  end.

Definition API_BASE_URL : string := or_else env_API_BASE_URL "https://api.scribemd.com".
Definition BEARER_TOKEN : string := or_else env_BEARER_TOKEN "".

Definition grant_url : string := (API_BASE_URL ++ "/api/v1/auth/grant")%string.

(** [JSON.stringify({ type: 'websocket' })]. *)
Definition grant_body : string :=
  to_display (stringify E (VObj [("type"%string, VStr "websocket")])).

Definition grant_request (token : string) : Request :=
  {| req_url := grant_url;
     req_method := "POST";
     req_headers := [("Content-Type", "application/json");
                     ("Authorization", "Bearer " ++ token)]%string;
     req_body := grant_body |}.

(** Lines 46-58: the diagnostic body of a failed response. *)
Definition errorData (r : Response) : value :=
  let is_json :=
    match content_type r with
    | Some ct => negb (is_empty ct) && includes "application/json" ct
    | None => false
    end in
  let read :=
    if is_json
    then match json r with Ok v => Some v | Threw _ => None end
    else option_map VStr (text r) in
  match read with
  | Some v => v
  | None => VStr "Could not parse error response"
  end.

(** Line 69: [typeof errorData === 'string' ? errorData :
    JSON.stringify(errorData)]. *)
Definition errorText (r : Response) : string :=
  match errorData r with
  | VStr s => s
  | v => to_display (stringify E v)
  end.

(** Lines 67-70. *)
Definition failure_message (r : Response) : string :=
  ("Failed to fetch WebSocket token: " ++ string_of_Z (status r) ++ " "
     ++ statusText r ++ ". "
     ++ "Error: " ++ errorText r)%string.

(** Lines 36-82: the body of the [try] from the point where the promise of
    [fetch] has settled. *)
Definition after_fetch (answer : result Response) : result value :=
  match answer with
  | Threw e => Threw e
  | Ok response =>
      if negb (ok response)
      then Threw (mkError "Error" (failure_message response))
      else match json response with
           | Threw e => Threw e
           | Ok data =>
               match success_log data with
               | Some t => Threw (TypeError E t)
               | None => Ok data
               end
           end
  end.

(** Lines 24-82: the body of the [try], with the requests it hands to
    [fetch]. *)
Definition try_body (token : string) : list Request * result value :=
  let request := grant_request token in
  ([request], after_fetch (fetch request)).

(** Lines 83-107: the [catch] clause; it always throws. *)
Definition on_catch (error : JsError) : JsError :=
  if String.eqb (name error) "TypeError" && includes "fetch" (message error)
  then mkError "Error"
         ("Network error: Could not reach " ++ grant_url ++ ". "
            ++ "Please check your internet connection and ensure the API is accessible. "
            ++ "Original error: " ++ message error)%string
  else if includes "Failed to fetch WebSocket token" (message error)
  then error
  else mkError "Error"
         ("Unexpected error fetching WebSocket token: " ++ message error)%string.

(** [fetchWebSocketToken(authToken?)]; [None] is the omitted argument.  The
    result is the parsed body as it is: the declared [WebSocketToken] type is
    erased at run time.  The first component lists the HTTP requests made. *)
Definition fetchWebSocketToken (authToken : option string)
  : list Request * result value :=
  let token := or_else authToken BEARER_TOKEN in
  let '(sent, outcome) := try_body token in
  (sent,
   match outcome with
   | Ok data => Ok data
   | Threw error => Threw (on_catch error)
   end).

End Fetch.

(** The call as its caller meets it across the [await]: the requests have
    been made when the call suspends, and the promise settles once the
    network has answered.  The requests do not depend on the answer, so
    they are read off the call under any network. *)
Definition requests_of_call (E : Engine) (env_API_BASE_URL env_BEARER_TOKEN : option string)
  (authToken : option string) : list Request :=
  fst (fetchWebSocketToken E env_API_BASE_URL env_BEARER_TOKEN
         (fun _ => Threw (mkError "" "")) authToken).

Definition outcome_of_call (E : Engine) (env_API_BASE_URL env_BEARER_TOKEN : option string)
  (answer : result Response) (authToken : option string) : result value :=
  snd (fetchWebSocketToken E env_API_BASE_URL env_BEARER_TOKEN (fun _ => answer) authToken).

(** The [WebSocketToken] interface as a predicate on a parsed body: an object
    with the three string members. *)
Definition is_string (v : value) : bool :=
  match v with VStr _ => true | _ => false end.

Definition has_WebSocketToken_shape (v : value) : bool :=
  match v with
  | VObj _ =>
      is_string (opt_get v "access_token")
      && is_string (opt_get v "expires_at")
      && is_string (opt_get v "key_type")
  | _ => false
  end.

(** A response whose body parses as JSON of that shape. *)
Definition parses_as_WebSocketToken (r : Response) : bool :=
  match json r with
  | Ok v => has_WebSocketToken_shape v
  | Threw _ => false
  end.

(** Example responses: a 401 with a JSON error body, a 200 whose body is
    the empty object, and a 200 whose body is [null]. *)
Definition response_401 : Response :=
  {| status := 401;
     statusText := "Unauthorized";
     content_type := Some "application/json"%string;
     json := Ok (VObj [("error"%string, VStr "invalid token")]);
     text := None |}.

Definition response_200_empty : Response :=
  {| status := 200;
     statusText := "OK";
     content_type := Some "application/json"%string;
     json := Ok (VObj []);
     text := None |}.

Definition response_200_null : Response :=
  {| status := 200;
     statusText := "OK";
     content_type := Some "application/json"%string;
     json := Ok VNull;
     text := None |}.

End Api.

(** ** The client component *)

Module Client.
Import JS.

Inductive ConnectionState := idle | connecting | connected | error.

(** [WebSocket.readyState]: 0, 1, 2, 3. *)
Inductive ReadyState := CONNECTING | OPEN | CLOSING | CLOSED.

Inductive Service := deepgram | aws | azure.

Definition Service_name (s : Service) : string :=
  match s with
  | deepgram => "deepgram"
  | aws => "aws"
  | azure => "azure"
  end.

(** Browser objects live in stores indexed by identity, so that a ref and
    the closures of the handlers alias the same object. *)
Record WebSocket := {
  ws_url : string;
  readyState : ReadyState;
  ws_sent : list (list Z)          (* binary frames handed to [send], oldest first *)
}.

Inductive TrackState := live | ended.
Definition MediaStream := list TrackState.

Inductive AudioContextState := running | closed.

(** A script processor with what its [onaudioprocess] closure captured:
    the socket [ws] and the counter [audioChunkCount]. *)
Record ScriptProcessorNode := {
  proc_socket : nat;
  proc_context : nat;
  proc_connected : bool;
  audioChunkCount : nat
}.

(** Calls into the environment, in the order made: the requests that
    [fetchWebSocketToken] hands to [fetch], [getUserMedia], the two
    constructors and [alert]. *)
Inductive Effect :=
| HttpRequest (request : Api.Request)
| CallGetUserMedia
| NewWebSocket (url : string)
| NewAudioContext
| Alert (msg : string).

(** A call of the [async] function [initializeTranscription], where it
    stands: suspended at the [await] of line 244 or of line 251, or
    returned.  Its closure holds the [language] and [service] of the render
    that made it and, from line 244 on, the local [wsToken]. *)
Inductive Activation :=
| AwaitingToken (language_ : string) (service_ : Service)
| AwaitingMedia (wsToken : value) (language_ : string) (service_ : Service)
| Returned.

(** React state, the five refs, the browser objects, the effect log and the
    calls of [initializeTranscription] made so far.  [wsTokenRef] holds a
    JavaScript value: [null], or whatever [fetchWebSocketToken] returned. *)
Record World := mkWorld {
  connectionState : ConnectionState;
  transcript : list value;
  interimTranscript : value;
  service : Service;
  language : string;
  wsRef : option nat;
  wsTokenRef : value;
  audioStreamRef : option nat;
  audioContextRef : option nat;
  audioProcessorRef : option nat;
  sockets : list WebSocket;
  streams : list MediaStream;
  contexts : list AudioContextState;
  processors : list ScriptProcessorNode;
  effects : list Effect;
  activations : list Activation
}.

(** Field updates. *)
Definition set_connectionState (x : ConnectionState) (w : World) : World :=
  let '(mkWorld _ tr it sv lg wr tk asr acr apr so st cx pr ef ac) := w in
  mkWorld x tr it sv lg wr tk asr acr apr so st cx pr ef ac.
Definition set_transcript (x : list value) (w : World) : World :=
  let '(mkWorld cs _ it sv lg wr tk asr acr apr so st cx pr ef ac) := w in
  mkWorld cs x it sv lg wr tk asr acr apr so st cx pr ef ac.
Definition set_interimTranscript (x : value) (w : World) : World :=
  let '(mkWorld cs tr _ sv lg wr tk asr acr apr so st cx pr ef ac) := w in
  mkWorld cs tr x sv lg wr tk asr acr apr so st cx pr ef ac.
Definition set_service (x : Service) (w : World) : World :=
  let '(mkWorld cs tr it _ lg wr tk asr acr apr so st cx pr ef ac) := w in
  mkWorld cs tr it x lg wr tk asr acr apr so st cx pr ef ac.
Definition set_language (x : string) (w : World) : World :=
  let '(mkWorld cs tr it sv _ wr tk asr acr apr so st cx pr ef ac) := w in
  mkWorld cs tr it sv x wr tk asr acr apr so st cx pr ef ac.
Definition set_wsRef (x : option nat) (w : World) : World :=
  let '(mkWorld cs tr it sv lg _ tk asr acr apr so st cx pr ef ac) := w in
  mkWorld cs tr it sv lg x tk asr acr apr so st cx pr ef ac.
Definition set_wsTokenRef (x : value) (w : World) : World :=
  let '(mkWorld cs tr it sv lg wr _ asr acr apr so st cx pr ef ac) := w in
  mkWorld cs tr it sv lg wr x asr acr apr so st cx pr ef ac.
Definition set_audioStreamRef (x : option nat) (w : World) : World :=
  let '(mkWorld cs tr it sv lg wr tk _ acr apr so st cx pr ef ac) := w in
  mkWorld cs tr it sv lg wr tk x acr apr so st cx pr ef ac.
Definition set_audioContextRef (x : option nat) (w : World) : World :=
  let '(mkWorld cs tr it sv lg wr tk asr _ apr so st cx pr ef ac) := w in
  mkWorld cs tr it sv lg wr tk asr x apr so st cx pr ef ac.
Definition set_audioProcessorRef (x : option nat) (w : World) : World :=
  let '(mkWorld cs tr it sv lg wr tk asr acr _ so st cx pr ef ac) := w in
  mkWorld cs tr it sv lg wr tk asr acr x so st cx pr ef ac.
Definition set_sockets (x : list WebSocket) (w : World) : World :=
  let '(mkWorld cs tr it sv lg wr tk asr acr apr _ st cx pr ef ac) := w in
  mkWorld cs tr it sv lg wr tk asr acr apr x st cx pr ef ac.
Definition set_streams (x : list MediaStream) (w : World) : World :=
  let '(mkWorld cs tr it sv lg wr tk asr acr apr so _ cx pr ef ac) := w in
  mkWorld cs tr it sv lg wr tk asr acr apr so x cx pr ef ac.
Definition set_contexts (x : list AudioContextState) (w : World) : World :=
  let '(mkWorld cs tr it sv lg wr tk asr acr apr so st _ pr ef ac) := w in
  mkWorld cs tr it sv lg wr tk asr acr apr so st x pr ef ac.
Definition set_processors (x : list ScriptProcessorNode) (w : World) : World :=
  let '(mkWorld cs tr it sv lg wr tk asr acr apr so st cx _ ef ac) := w in
  mkWorld cs tr it sv lg wr tk asr acr apr so st cx x ef ac.
Definition set_effects (x : list Effect) (w : World) : World :=
  let '(mkWorld cs tr it sv lg wr tk asr acr apr so st cx pr _ ac) := w in
  mkWorld cs tr it sv lg wr tk asr acr apr so st cx pr x ac.
Definition set_activations (x : list Activation) (w : World) : World :=
  let '(mkWorld cs tr it sv lg wr tk asr acr apr so st cx pr ef _) := w in
  mkWorld cs tr it sv lg wr tk asr acr apr so st cx pr ef x.

Definition initial : World :=
  mkWorld idle [] (VStr "") deepgram "en-US" None VNull None None None [] [] [] [] [] [].

(** *** A state-and-exception monad for the body of an [async] function *)

Definition M (A : Type) : Type := World -> result A * World.

Definition ret {A : Type} (a : A) : M A := fun w => (Ok a, w).

Definition bind {A B : Type} (m : M A) (k : A -> M B) : M B :=
  fun w =>
    match m w with
    | (Ok a, w') => k a w'
    | (Threw e, w') => (Threw e, w')
    end.

Definition gets {A : Type} (f : World -> A) : M A := fun w => (Ok (f w), w).

Definition modify (f : World -> World) : M unit := fun w => (Ok tt, f w).

(** An expression that may throw, or a promise that has settled. *)
Definition lift {A : Type} (outcome : result A) : M A := fun w => (outcome, w).

Definition log (e : Effect) : World -> World :=
  fun w => set_effects (effects w ++ [e]) w.

(** A call into the environment: logged, then its outcome. *)
Definition call {A : Type} (e : Effect) (outcome : result A) : M A :=
  fun w => (outcome, log e w).

Notation "x <- m ;; k" := (bind m (fun x => k))
  (at level 90, m at next level, right associativity).
Notation "m ;;; k" := (bind m (fun _ => k))
  (at level 90, right associativity).

(** [encodeURIComponent] on a byte string. *)
Definition unreserved (c : ascii) : bool :=
  let n := nat_of_ascii c in
  ((65 <=? n) && (n <=? 90) || (97 <=? n) && (n <=? 122) || (48 <=? n) && (n <=? 57))%nat
  || existsb (Ascii.eqb c) ["-"; "_"; "."; "!"; "~"; "*"; "'"; "("; ")"]%char.

Definition upper_hex (n : nat) : ascii :=
  ascii_of_nat (if (n <? 10)%nat then 48 + n else 55 + n)%nat.

Fixpoint encodeURIComponent (s : string) : string :=
  match s with
  | EmptyString => EmptyString
  | String c rest =>
      let n := nat_of_ascii c in
      if unreserved c then String c (encodeURIComponent rest)
      else String "%" (String (upper_hex (n / 16))
             (String (upper_hex (n mod 16)) (encodeURIComponent rest)))
  end.

(** What is fixed for a page: the engine and the two build-time variables
    that [api.ts] reads. *)
Record Platform := {
  engine : Engine;
  env_API_BASE_URL : option string;
  env_BEARER_TOKEN : option string
}.

(** What one call of [initializeTranscription] meets in its environment: the
    clock, the answer of the network to the grant request, and the outcome
    of each later call it may make. *)
Record StartEnv := {
  now : Z;                                   (* [new Date()], in ms *)
  fetch_outcome : result Api.Response;       (* the promise of [fetch(url, ..)] *)
  media_outcome : result nat;                (* [await getUserMedia(..)]: the tracks granted *)
  socket_outcome : result unit;              (* [new WebSocket(wsUrl)] *)
  audio_outcome : result unit                (* [new AudioContext(..)] *)
}.

Section WithPlatform.

Variable P : Platform.

(** A comparison with [NaN] is false. *)
Definition Date_le (d : option Z) (now_ms : Z) : bool :=
  match d with
  | Some t => t <=? now_ms
  | None => false
  end.

(** [new Date(wsToken.expires_at)], for a [wsToken] that is truthy. *)
Definition expiry (wsToken : value) : result (option Z) :=
  New_Date (engine P) (opt_get wsToken "expires_at").

(** [!wsToken || new Date(wsToken.expires_at) <= new Date()]. *)
Definition must_fetch (cached : value) (now_ms : Z) : result bool :=
  if negb (truthy cached) then Ok true
  else match expiry cached with
       | Ok d => Ok (Date_le d now_ms)
       | Threw e => Threw e
       end.

(** Line 261: the template literal. *)
Definition wsUrl_of (wsToken : value) (language_ : string) (service_ : Service)
  : result string :=
  match get wsToken "access_token" with
  | None => Threw (TypeError (engine P) (ReadOfNullish wsToken "access_token"))
  | Some access_token =>
      match ToString (engine P) access_token with
      | Threw e => Threw e
      | Ok s =>
          Ok ("wss://stt.scribemd.ai/v1/listen?access_token="
                ++ encodeURIComponent s
                ++ "&language=" ++ language_
                ++ "&service=" ++ Service_name service_)%string
      end
  end.

(** [fetchWebSocketToken()] of [api.ts], called with no argument: the
    requests it makes before it suspends, and what its promise settles
    with. *)
Definition token_requests : list Api.Request :=
  Api.requests_of_call (engine P) (env_API_BASE_URL P) (env_BEARER_TOKEN P) None.

Definition token_outcome (answer : result Api.Response) : result value :=
  Api.outcome_of_call (engine P) (env_API_BASE_URL P) (env_BEARER_TOKEN P) answer None.

(** [source.connect(processor); processor.connect(audioContext.destination)]. *)
Definition connect (p : ScriptProcessorNode) : ScriptProcessorNode :=
  Build_ScriptProcessorNode (proc_socket p) (proc_context p) true (audioChunkCount p).

(** The body of the [try] of [initializeTranscription], in the three
    stretches that the two [await]s cut it into.  Each ends suspended at
    the next [await] or returned. *)

(** Lines 237-251: from the call to the first [await] it reaches. *)
Definition from_call (now_ms : Z) : M Activation :=
  modify (set_connectionState connecting) ;;;
  language_ <- gets language ;;
  service_ <- gets service ;;
  (* Step 1 *)
  cached <- gets wsTokenRef ;;
  stale <- lift (must_fetch cached now_ms) ;;
  if (stale : bool)
  then modify (fun w => set_effects (effects w ++ map HttpRequest token_requests) w) ;;;
       ret (AwaitingToken language_ service_)
  else (* Step 2 *)
       modify (log CallGetUserMedia) ;;;
       ret (AwaitingMedia cached language_ service_).

(** Lines 244-251: from the settled token fetch to the second [await]. *)
Definition from_token (answer : result Api.Response)
  (language_ : string) (service_ : Service) : M Activation :=
  wsToken <- lift (token_outcome answer) ;;
  modify (set_wsTokenRef wsToken) ;;;
  (* Step 2 *)
  modify (log CallGetUserMedia) ;;;
  ret (AwaitingMedia wsToken language_ service_).

(** Lines 251-393: from the settled microphone request to the end. *)
Definition from_media (media : result nat) (socket audio : result unit)
  (wsToken : value) (language_ : string) (service_ : Service) : M Activation :=
  tracks <- lift media ;;
  stream <- gets (fun w => length (streams w)) ;;
  modify (fun w => set_streams (streams w ++ [replicate tracks live]) w) ;;;
  modify (set_audioStreamRef (Some stream)) ;;;
  (* Step 3 *)
  wsUrl <- lift (wsUrl_of wsToken language_ service_) ;;
  call (NewWebSocket wsUrl) socket ;;;
  ws <- gets (fun w => length (sockets w)) ;;
  modify (fun w => set_sockets (sockets w ++ [Build_WebSocket wsUrl CONNECTING []]) w) ;;;
  modify (set_wsRef (Some ws)) ;;;
  (* Step 4 *)
  call NewAudioContext audio ;;;
  audioContext <- gets (fun w => length (contexts w)) ;;
  modify (fun w => set_contexts (contexts w ++ [running]) w) ;;;
  modify (set_audioContextRef (Some audioContext)) ;;;
  processor <- gets (fun w => length (processors w)) ;;
  modify (fun w => set_processors
                     (processors w ++ [Build_ScriptProcessorNode ws audioContext false 0]) w) ;;;
  modify (set_audioProcessorRef (Some processor)) ;;;
  modify (fun w => set_processors (alter connect processor (processors w)) w) ;;;
  ret Returned.

(** The [catch] of [initializeTranscription]. *)
Definition initialize_catch (e : JsError) (w : World) : World :=
  log (Alert ("Failed to initialize transcription: " ++ message e)%string)
      (set_connectionState error w).

(** Where a call stands is recorded: a new call, and call number [k]. *)
Definition push (a : Activation) (w : World) : World :=
  set_activations (activations w ++ [a]) w.

Definition put (k : nat) (a : Activation) (w : World) : World :=
  set_activations (<[k := a]> (activations w)) w.

(** [try { m } catch (error) { .. }] around a stretch: where the call
    stands after it, and the state. *)
Definition try_catch (m : M Activation) (w : World) : Activation * World :=
  match m w with
  | (Ok a, w') => (a, w')
  | (Threw e, w') => (Returned, initialize_catch e w')
  end.

(** The three stretches as the event loop runs them: the call itself, and
    the two resumptions of call number [k], each of which runs only if that
    call is suspended at the [await] in question. *)
Definition on_call (now_ms : Z) (w : World) : World :=
  let '(a, w') := try_catch (from_call now_ms) w in
  push a w'.

Definition on_token (k : nat) (answer : result Api.Response) (w : World) : World :=
  match activations w !! k with
  | Some (AwaitingToken language_ service_) =>
      let '(a, w') := try_catch (from_token answer language_ service_) w in
      put k a w'
  | _ => w
  end.

Definition on_media (k : nat) (media : result nat) (socket audio : result unit)
  (w : World) : World :=
  match activations w !! k with
  | Some (AwaitingMedia wsToken language_ service_) =>
      let '(a, w') :=
        try_catch (from_media media socket audio wsToken language_ service_) w in
      put k a w'
  | _ => w
  end.

(** A call of [initializeTranscription] that nothing interleaves with: the
    awaited promises settle, with the outcomes of [env], before any other
    event is handled. *)
Definition initializeTranscription (env : StartEnv) (w : World) : World :=
  let k := length (activations w) in
  on_media k (media_outcome env) (socket_outcome env) (audio_outcome env)
    (on_token k (fetch_outcome env) (on_call (now env) w)).

End WithPlatform.

(** *** The WebSocket handlers *)

Definition ws_onopen (w : World) : World := set_connectionState connected w.

(** [data.channel?.alternatives?.[0]?.transcript], for a [data] that is not
    nullish. *)
Definition transcript_of (data : value) : value :=
  opt_get (opt_get (opt_get (opt_get data "channel") "alternatives") "0") "transcript".

(** [parsed] is what [JSON.parse(event.data)] gives: [None] when it throws.
    A throw anywhere in the [try] is caught and logged. *)
Definition ws_onmessage (parsed : option value) (w : World) : World :=
  match parsed with
  | None => w
  | Some data =>
      match get data "error" with
      | None => w                                  (* TypeError: [data] is null *)
      | Some err =>
          if truthy err then w
          else
            let transcript_ := transcript_of data in
            if truthy transcript_ then
              if truthy (opt_get data "is_final")
              then set_interimTranscript (VStr "")
                     (set_transcript (transcript w ++ [transcript_]) w)
              else set_interimTranscript transcript_ w
            else w
      end
  end.

Definition ws_onerror (w : World) : World := set_connectionState error w.

Definition ws_onclose (w : World) : World := set_connectionState idle w.

(** *** The audio callback *)

Definition is_OPEN (r : ReadyState) : bool :=
  match r with OPEN => true | _ => false end.

Definition socket_open (w : World) (id : nat) : bool :=
  match sockets w !! id with
  | Some ws => is_OPEN (readyState ws)
  | None => false
  end.

Definition send (frame : list Z) (ws : WebSocket) : WebSocket :=
  Build_WebSocket (ws_url ws) (readyState ws) (ws_sent ws ++ [frame]).

Definition count_chunk (p : ScriptProcessorNode) : ScriptProcessorNode :=
  Build_ScriptProcessorNode (proc_socket p) (proc_context p) (proc_connected p)
                            (S (audioChunkCount p)).

(** [processor.onaudioprocess] of processor [pid], on one input frame. *)
Definition onaudioprocess (pid : nat) (inputData : list spec_float) (w : World) : World :=
  match processors w !! pid with
  | None => w
  | Some p =>
      if socket_open w (proc_socket p)
      then
        let pcmData := Pcm.to_pcm inputData in
        set_sockets (alter (send (Pcm.buffer pcmData)) (proc_socket p) (sockets w))
          (set_processors (alter count_chunk pid (processors w)) w)
      else w
  end.

(** *** [stopTranscription] and [clearTranscript] *)

Definition disconnect (p : ScriptProcessorNode) : ScriptProcessorNode :=
  Build_ScriptProcessorNode (proc_socket p) (proc_context p) false (audioChunkCount p).

Definition close_socket (ws : WebSocket) : WebSocket :=
  Build_WebSocket (ws_url ws) CLOSING (ws_sent ws).

Definition stop_tracks (s : MediaStream) : MediaStream := map (fun _ => ended) s.

Definition stopTranscription (w : World) : World :=
  let w1 :=
    match audioProcessorRef w with
    | Some p => set_audioProcessorRef None
                  (set_processors (alter disconnect p (processors w)) w)
    | None => w
    end in
  let w2 :=
    match audioContextRef w1 with
    | Some c => set_audioContextRef None
                  (set_contexts (alter (fun _ => closed) c (contexts w1)) w1)
    | None => w1
    end in
  let w3 :=
    match audioStreamRef w2 with
    | Some s => set_audioStreamRef None
                  (set_streams (alter stop_tracks s (streams w2)) w2)
    | None => w2
    end in
  let w4 :=
    match wsRef w3 with
    | Some id =>
        if socket_open w3 id
        then set_wsRef None (set_sockets (alter close_socket id (sockets w3)) w3)
        else w3
    | None => w3
    end in
  set_connectionState idle w4.

Definition clearTranscript (w : World) : World :=
  set_interimTranscript (VStr "") (set_transcript [] w).

(** *** Events: what the user and the browser make the component run *)

(** [Start] is a click on Start whose call runs to its end before any other
    event is handled; [StartCall], [TokenSettled] and [MediaSettled] are the
    same call stretch by stretch, with other events free to come between:
    the click, and the settling of the promise that call number [k] awaits
    at line 244 and at line 251. *)
Inductive Event :=
| Start (env : StartEnv)
| StartCall (now_ms : Z)
| TokenSettled (k : nat) (answer : result Api.Response)
| MediaSettled (k : nat) (media : result nat) (socket audio : result unit)
| Stop
| Clear
| SetService (s : Service)
| SetLanguage (l : string)
| Unmount
| WsOpen (id : nat)
| WsMessage (id : nat) (parsed : option value)
| WsError (id : nat)
| WsClose (id : nat)
| AudioProcess (pid : nat) (inputData : list spec_float).

Definition set_readyState (r : ReadyState) (ws : WebSocket) : WebSocket :=
  Build_WebSocket (ws_url ws) r (ws_sent ws).

Definition processor_runs (w : World) (pid : nat) : bool :=
  match processors w !! pid with
  | Some p =>
      proc_connected p
      && match contexts w !! proc_context p with
         | Some running => true
         | _ => false
         end
  | None => false
  end.

(** One event.  The browser updates [readyState] before it runs the
    handler; an event on an object that is not there, or that the object's
    state rules out, is no event. *)
Definition step (P : Platform) (w : World) (e : Event) : World :=
  match e with
  | Start env => initializeTranscription P env w
  | StartCall now_ms => on_call P now_ms w
  | TokenSettled k answer => on_token P k answer w
  | MediaSettled k media socket audio => on_media P k media socket audio w
  | Stop | Unmount => stopTranscription w
  | Clear => clearTranscript w
  | SetService s => set_service s w
  | SetLanguage l => set_language l w
  | WsOpen id =>
      match sockets w !! id with
      | Some (Build_WebSocket _ CONNECTING _) =>
          ws_onopen (set_sockets (alter (set_readyState OPEN) id (sockets w)) w)
      | _ => w
      end
  | WsMessage id parsed =>
      match sockets w !! id with
      | Some (Build_WebSocket _ (OPEN | CLOSING) _) => ws_onmessage parsed w
      | _ => w
      end
  | WsError id =>
      match sockets w !! id with
      | Some _ => ws_onerror w
      | None => w
      end
  | WsClose id =>
      match sockets w !! id with
      | Some (Build_WebSocket _ (CONNECTING | OPEN | CLOSING) _) =>
          ws_onclose (set_sockets (alter (set_readyState CLOSED) id (sockets w)) w)
      | _ => w
      end
  | AudioProcess pid inputData =>
      if processor_runs w pid then onaudioprocess pid inputData w else w
  end.

Definition run (P : Platform) (w : World) (events : list Event) : World :=
  fold_left (step P) events w.

(** The controls the page enables in a state: [Start] replaces [Stop] when
    idle or in error; [Clear] and the two selects are disabled unless idle. *)
Definition ui_enabled (w : World) (e : Event) : bool :=
  match e, connectionState w with
  | (Start _ | StartCall _), (idle | error) => true
  | Stop, (connecting | connected) => true
  | (Clear | SetService _ | SetLanguage _), idle => true
  | (Start _ | StartCall _ | Stop | Clear | SetService _ | SetLanguage _), _ => false
  | _, _ => true
  end.

(** *** Observations used in the statements *)

(** The credential step of a start: the cached credential when it is
    truthy and not expired, else what the fetch gives; the expiry check
    itself can throw. *)
Definition credential_step (P : Platform) (env : StartEnv) (w : World) : result value :=
  match must_fetch P (wsTokenRef w) (now env) with
  | Threw e => Threw e
  | Ok true => token_outcome P (fetch_outcome env)
  | Ok false => Ok (wsTokenRef w)
  end.

(** What a start has logged when the credential step is over. *)
Definition fetch_prefix (P : Platform) (env : StartEnv) (w : World) : list Effect :=
  match must_fetch P (wsTokenRef w) (now env) with
  | Ok true => map HttpRequest (token_requests P)
  | _ => []
  end.

(** The stages of a start in direct style: the state after each step that
    succeeded, and after a step that threw. *)
Definition with_microphone (tracks : nat) (w : World) : World :=
  set_audioStreamRef (Some (length (streams w)))
    (set_streams (streams w ++ [replicate tracks live]) (log CallGetUserMedia w)).

Definition with_socket (wsUrl : string) (w : World) : World :=
  set_wsRef (Some (length (sockets w)))
    (set_sockets (sockets w ++ [Build_WebSocket wsUrl CONNECTING []])
       (log (NewWebSocket wsUrl) w)).

Definition with_audio (ws : nat) (w : World) : World :=
  let audioContext := length (contexts w) in
  let processor := length (processors w) in
  set_processors
    (alter connect processor
       (processors w ++ [Build_ScriptProcessorNode ws audioContext false 0]))
    (set_audioProcessorRef (Some processor)
       (set_audioContextRef (Some audioContext)
          (set_contexts (contexts w ++ [running]) (log NewAudioContext w)))).

Definition failed (e : JsError) (attempt : list Effect) (w : World) : World :=
  initialize_catch e (set_effects (effects w ++ attempt) w).

(** The microphone stream, without the request for it. *)
Definition with_stream (tracks : nat) (w : World) : World :=
  set_audioStreamRef (Some (length (streams w)))
    (set_streams (streams w ++ [replicate tracks live]) w).

Definition alert_of (e : JsError) : Effect :=
  Alert ("Failed to initialize transcription: " ++ message e)%string.

(** The handles and the browser objects are what they were. *)
Definition held_unchanged (w w' : World) : Prop :=
  wsRef w' = wsRef w /\ audioStreamRef w' = audioStreamRef w
  /\ audioContextRef w' = audioContextRef w
  /\ audioProcessorRef w' = audioProcessorRef w
  /\ sockets w' = sockets w /\ streams w' = streams w
  /\ contexts w' = contexts w /\ processors w' = processors w.

Definition is_request (e : Effect) : bool :=
  match e with HttpRequest _ => true | _ => false end.

(** The number of HTTP requests made so far. *)
Definition count_fetches (w : World) : nat :=
  length (List.filter is_request (effects w)).

(** The cached credential's expiry is a date strictly after the clock
    reading. *)
Definition expires_in_future (P : Platform) (cached : value) (now_ms : Z) : bool :=
  match expiry P cached with
  | Ok (Some t) => now_ms <? t
  | _ => false
  end.

(** The audio resources are released: no audio handle is held. *)
Definition audio_released (w : World) : bool :=
  match audioProcessorRef w, audioContextRef w, audioStreamRef w with
  | None, None, None => true
  | _, _, _ => false
  end.

(** The socket handle is null, or the socket it names is closed or
    closing. *)
Definition socket_released (w : World) : bool :=
  match wsRef w with
  | None => true
  | Some id =>
      match sockets w !! id with
      | Some ws => match readyState ws with
                   | CLOSING | CLOSED => true
                   | CONNECTING | OPEN => false
                   end
      | None => true
      end
  end.

Definition buffers_empty (w : World) : bool :=
  match transcript w, interimTranscript w with
  | [], VStr EmptyString => true
  | _, _ => false
  end.

(** The event is a start or a stretch of one. *)
Definition is_Start (e : Event) : bool :=
  match e with
  | Start _ | StartCall _ | TokenSettled _ _ | MediaSettled _ _ _ _ => true
  | _ => false
  end.

Definition is_Clear (e : Event) : bool :=
  match e with Clear => true | _ => false end.

(** The characters [encodeURIComponent] lets through or makes. *)
Definition url_safe (s : string) : Prop :=
  Forall (fun c => unreserved c = true \/ c = "%"%char) (list_ascii_of_string s).

(** *** Example data *)

(** An engine for the examples: it prints the integers (all the Numbers the
    examples hold), knows the one date string of [example_token], which is
    1762829443291 ms, and words its [TypeError]s as V8 does. *)
Definition example_engine : Engine :=
  {| Number_toString := fun x => string_of_Z (Pcm.truncate x);
     Date_parse := fun s =>
       if String.eqb s "2025-11-11T02:50:43.291Z" then Some 1762829443291 else None;
     TypeError_message := fun t =>
       match t with
       | ReadOfNullish base key =>
           ("Cannot read properties of "
              ++ (match base with VNull => "null" | _ => "undefined" end)
              ++ " (reading '" ++ key ++ "')")%string
       | NotAFunction callee => (callee ++ " is not a function")%string
       | NotPrimitive => "Cannot convert object to primitive value"%string
       end |}.

Definition example_platform : Platform :=
  {| engine := example_engine; env_API_BASE_URL := None; env_BEARER_TOKEN := None |}.

Definition example_token : value :=
  VObj [("access_token"%string, VStr "ws-67844d68");
        ("expires_at"%string, VStr "2025-11-11T02:50:43.291Z");
        ("key_type"%string, VStr "websocket")].

(** A credential whose expiry is not a date. *)
Definition undated_token : value :=
  VObj [("access_token"%string, VStr "ws-0");
        ("expires_at"%string, VStr "");
        ("key_type"%string, VStr "websocket")].

Definition response_200 (body : value) : Api.Response :=
  {| Api.status := 200;
     Api.statusText := "OK";
     Api.content_type := Some "application/json"%string;
     Api.json := Ok body;
     Api.text := None |}.

Definition env_all_succeed : StartEnv :=
  {| now := 1762829000000;
     fetch_outcome := Ok (response_200 example_token);
     media_outcome := Ok 1%nat;
     socket_outcome := Ok tt;
     audio_outcome := Ok tt |}.

(** A start in which the WebSocket constructor throws. *)
Definition env_socket_throws : StartEnv :=
  {| now := 1762829000000;
     fetch_outcome := Ok (response_200 example_token);
     media_outcome := Ok 1%nat;
     socket_outcome := Threw (mkError "SyntaxError" "The URL is invalid");
     audio_outcome := Ok tt |}.

(** [{channel:{alternatives:[{transcript: t}]}, is_final: f}]. *)
Definition message (t : value) (f : bool) : value :=
  VObj [("channel"%string,
         VObj [("alternatives"%string, VArr [VObj [("transcript"%string, t)]])]);
        ("is_final"%string, VBool f)].

End Client.

(* ===================================================================== *)
(** * Part II: theorems                                                   *)
(* ===================================================================== *)

(** ** Binary floating point: exact cases of rounding *)

Import Pcm.

Lemma digits2_pos_bounds (m : positive) :
  2 ^ (Zpos (digits2_pos m) - 1) <= Zpos m < 2 ^ Zpos (digits2_pos m).
Proof.
  induction m as [m IH | m IH | ]; cbn [digits2_pos].
  - rewrite Pos2Z.inj_succ, Z.pow_succ_r by lia.
    replace (Z.succ (Zpos (digits2_pos m)) - 1) with (Z.succ (Zpos (digits2_pos m) - 1)) by lia.
    rewrite Z.pow_succ_r by lia. lia.
  - rewrite Pos2Z.inj_succ, Z.pow_succ_r by lia.
    replace (Z.succ (Zpos (digits2_pos m)) - 1) with (Z.succ (Zpos (digits2_pos m) - 1)) by lia.
    rewrite Z.pow_succ_r by lia. lia.
  - cbn. lia.
Qed.

Lemma digits2_pos_unique (m : positive) (d : Z) :
  2 ^ (d - 1) <= Zpos m < 2 ^ d -> Zpos (digits2_pos m) = d.
Proof.
  intros [Hlo Hhi]. pose proof (digits2_pos_bounds m) as [Blo Bhi].
  set (c := Zpos (digits2_pos m)) in *.
  assert (0 < d).
  { destruct (Z_lt_le_dec 0 d) as [|Hd]; [assumption|].
    assert (2 ^ d <= 2 ^ 0) by (destruct (Z_lt_le_dec d 0);
      [rewrite Z.pow_neg_r by lia; cbn; lia | apply Z.pow_le_mono_r; lia]).
    cbn in *. lia. }
  destruct (Z_lt_le_dec c d) as [Hlt|Hge].
  - assert (2 ^ c <= 2 ^ (d - 1)) by (apply Z.pow_le_mono_r; lia). lia.
  - destruct (Z_lt_le_dec d c) as [Hgt|]; [|lia].
    assert (2 ^ d <= 2 ^ (c - 1)) by (apply Z.pow_le_mono_r; lia). lia.
Qed.

Lemma iter_shr_1_exact (n : positive) : forall (m : positive) (z : Z),
  z = Zpos m * 2 ^ Zpos n ->
  SpecFloat.iter_pos shr_1 n {| shr_m := z; shr_r := false; shr_s := false |}
  = {| shr_m := Zpos m; shr_r := false; shr_s := false |}.
Proof.
  induction n as [n IH | n IH | ]; intros m z ->; cbn [SpecFloat.iter_pos].
  - replace (Zpos n~1) with (Zpos n + Zpos n + 1) by lia.
    rewrite !Z.pow_add_r, Z.pow_1_r by lia.
    replace (Zpos m * (2 ^ Zpos n * 2 ^ Zpos n * 2)) with (Zpos (m * 2 ^ n * 2 ^ n)~0) by lia.
    cbn [shr_1 orb].
    rewrite (IH (m * 2 ^ n)%positive) by lia. apply IH. lia.
  - replace (Zpos n~0) with (Zpos n + Zpos n) by lia.
    rewrite !Z.pow_add_r by lia.
    rewrite (IH (m * 2 ^ n)%positive) by lia. apply IH. lia.
  - replace (Zpos m * 2 ^ 1) with (Zpos m~0) by lia. reflexivity.
Qed.

Lemma binary_round_aux_exact (sx : bool) (M : positive) (j E : Z) :
  0 <= j -> Zpos (digits2_pos M) = 53 -> -1074 <= E + j <= 971 ->
  binary_round_aux prec emax sx (Zpos M * 2 ^ j) E loc_Exact = S754_finite sx M (E + j).
Proof.
  intros Hj HM HE.
  assert (Hp : 0 < 2 ^ j) by (apply Z.pow_pos_nonneg; lia).
  destruct (Zpos M * 2 ^ j) as [|P|P] eqn:EP; try lia.
  assert (HP : Zpos (digits2_pos P) = 53 + j).
  { apply digits2_pos_unique. pose proof (digits2_pos_bounds M) as B. rewrite HM in B.
    rewrite <- EP. replace (53 + j - 1) with (52 + j) by lia.
    rewrite !Z.pow_add_r by lia.
    change (2 ^ (53 - 1)) with 4503599627370496 in B.
    change (2 ^ 53) with 9007199254740992 in B |- *.
    change (2 ^ 52) with 4503599627370496.
    split.
    - apply Z.mul_le_mono_nonneg_r; lia.
    - apply Z.mul_lt_mono_pos_r; lia. }
  unfold binary_round_aux, shr_fexp, shr_record_of_loc.
  cbn [Zdigits2]. rewrite HP.
  replace (fexp prec emax (53 + j + E) - E) with j
    by (unfold fexp, emin, prec, emax; lia).
  assert (Hshr : shr {| shr_m := Zpos P; shr_r := false; shr_s := false |} E j
          = ({| shr_m := Zpos M; shr_r := false; shr_s := false |}, E + j)).
  { destruct j as [|p|p]; try lia.
    - cbn [shr]. f_equal; [|lia]. f_equal. lia.
    - cbn [shr]. f_equal. apply iter_shr_1_exact. lia. }
  rewrite Hshr. cbn [shr_m loc_of_shr_record round_nearest_even Zdigits2].
  rewrite HM.
  replace (fexp prec emax (53 + (E + j)) - (E + j)) with 0
    by (unfold fexp, emin, prec, emax; lia).
  cbn [shr shr_m].
  replace (E + j <=? emax - prec) with true
    by (symmetry; apply Z.leb_le; unfold emax, prec; lia).
  reflexivity.
Qed.

Lemma pow2_lt_exponent (a b x : Z) : 0 <= b -> 2 ^ a <= x < 2 ^ b -> a < b.
Proof.
  intros Hb [H1 H2]. destruct (Z_lt_le_dec a b) as [|Hge]; [assumption|].
  assert (2 ^ b <= 2 ^ a) by (apply Z.pow_le_mono_r; lia). lia.
Qed.

Lemma Zpos_shift (m : positive) (k : Z) :
  0 <= k -> Zpos (Z.to_pos (Zpos m * 2 ^ k)) = Zpos m * 2 ^ k.
Proof.
  intros Hk. assert (0 < 2 ^ k) by (apply Z.pow_pos_nonneg; lia).
  rewrite Z2Pos.id; nia.
Qed.

Lemma digits2_pos_shift (m : positive) (k : Z) :
  0 <= k ->
  Zpos (digits2_pos (Z.to_pos (Zpos m * 2 ^ k))) = Zpos (digits2_pos m) + k.
Proof.
  intros Hk. apply digits2_pos_unique. rewrite Zpos_shift by assumption.
  pose proof (digits2_pos_bounds m) as [Blo Bhi].
  assert (0 < 2 ^ k) by (apply Z.pow_pos_nonneg; lia).
  replace (Zpos (digits2_pos m) + k - 1) with (Zpos (digits2_pos m) - 1 + k) by lia.
  rewrite !Z.pow_add_r by lia. split.
  - apply Z.mul_le_mono_nonneg_r; lia.
  - apply Z.mul_lt_mono_pos_r; lia.
Qed.

Lemma binary_round_short (s : bool) (m : positive) (e : Z) :
  let d := Zpos (digits2_pos m) in
  d <= 53 -> -1074 <= d + e - 53 <= 971 ->
  binary_round prec emax s m e
  = S754_finite s (Z.to_pos (Zpos m * 2 ^ (53 - d))) (e - (53 - d)).
Proof.
  intros d Hd He. unfold binary_round. fold d.
  replace (fexp prec emax (d + e)) with (d + e - 53)
    by (unfold fexp, emin, prec, emax; lia).
  unfold shl_align.
  destruct (d + e - 53 - e) as [|p|p] eqn:Ediff; try lia.
  - assert (d = 53) by lia.
    replace (Zpos m) with (Zpos m * 2 ^ 0) at 1 by (cbn; lia).
    rewrite binary_round_aux_exact by (fold d; lia).
    f_equal; [|lia]. replace (53 - d) with 0 by lia. cbn. lia.
  - assert (Hp : Zpos p = 53 - d) by lia.
    assert (Hsh : Zpos (Pos.iter xO m p) = Zpos m * 2 ^ (53 - d)).
    { change (Pos.iter xO m p) with (shift_pos p m).
      rewrite shift_pos_correct, Zpower_pos_nat, Zpower_nat_Z, positive_nat_Z, Hp. lia. }
    replace (Zpos (Pos.iter xO m p)) with (Zpos (Pos.iter xO m p) * 2 ^ 0) by (cbn; lia).
    rewrite binary_round_aux_exact.
    + f_equal; [|lia]. rewrite <- Hsh. reflexivity.
    + lia.
    + apply digits2_pos_unique. rewrite Hsh.
      pose proof (digits2_pos_bounds m) as [Blo Bhi]. fold d in Blo, Bhi.
      assert (0 < 2 ^ (53 - d)) by (apply Z.pow_pos_nonneg; lia).
      replace (2 ^ (53 - 1)) with (2 ^ (d - 1) * 2 ^ (53 - d))
        by (rewrite <- Z.pow_add_r by lia; f_equal; lia).
      replace (2 ^ 53) with (2 ^ d * 2 ^ (53 - d))
        by (rewrite <- Z.pow_add_r by lia; f_equal; lia).
      split.
      * apply Z.mul_le_mono_nonneg_r; lia.
      * apply Z.mul_lt_mono_pos_r; lia.
    + lia.
Qed.

(* A finite binary32 datum has a mantissa of at most 24 bits and an
   exponent between -149 and 104. *)
Lemma valid_binary32_bounds (s : bool) (m : positive) (e : Z) :
  valid_binary f32_prec f32_emax (S754_finite s m e) = true ->
  Zpos (digits2_pos m) <= 24 /\ -149 <= e <= 104.
Proof.
  cbn [valid_binary]. unfold bounded, canonical_mantissa, fexp, emin, f32_prec, f32_emax.
  intros H. apply andb_true_iff in H as [H1 H2].
  apply Z.eqb_eq in H1. apply Z.leb_le in H2. lia.
Qed.

Lemma f32_to_Number_finite (s : bool) (m : positive) (e : Z) :
  valid_binary f32_prec f32_emax (S754_finite s m e) = true ->
  let d := Zpos (digits2_pos m) in
  f32_to_Number (S754_finite s m e)
  = S754_finite s (Z.to_pos (Zpos m * 2 ^ (53 - d))) (e - (53 - d)).
Proof.
  intros Hv d. apply valid_binary32_bounds in Hv as [Hd He]. fold d in Hd.
  cbn [f32_to_Number]. apply binary_round_short; fold d; lia.
Qed.

Lemma Number_of_Z_1 : Number_of_Z 1 = one. Proof. reflexivity. Qed.
Lemma Number_of_Z_m1 : Number_of_Z (-1) = minus_one. Proof. reflexivity. Qed.
Lemma Number_of_Z_32767 : Number_of_Z 32767 = x7FFF. Proof. reflexivity. Qed.

Lemma clamp_small (s : bool) (M : positive) (E : Z) :
  E < -52 ->
  Math_max minus_one (Math_min one (S754_finite s M E)) = S754_finite s M E.
Proof.
  intros HE. unfold Math_min, Math_max, one, minus_one, SFltb, SFcompare.
  destruct s; cbv beta iota.
  - replace (E ?= -52) with Lt by (symmetry; apply Z.compare_lt_iff; lia).
    cbv beta iota.
    replace (-52 ?= E) with Gt by (symmetry; apply Z.compare_gt_iff; lia).
    reflexivity.
  - replace (E ?= -52) with Lt by (symmetry; apply Z.compare_lt_iff; lia).
    reflexivity.
Qed.

Lemma clamp_large (s : bool) (M : positive) (E : Z) :
  Zpos (digits2_pos M) = 53 -> -52 <= E ->
  Math_max minus_one (Math_min one (S754_finite s M E)) = if s then minus_one else one.
Proof.
  intros HM HE. pose proof (digits2_pos_bounds M) as [Blo _]. rewrite HM in Blo.
  change (2 ^ (53 - 1)) with 4503599627370496 in Blo. clear HM.
  unfold Math_min, Math_max, one, minus_one, SFltb, SFcompare.
  destruct s; cbv beta iota.
  - destruct (Z.compare_spec (-52) E) as [<-|Hlt|Hgt]; [| reflexivity | lia].
    rewrite Pos.compare_cont_spec. cbn [Pos.switch_Eq].
    destruct (Pos.compare_spec 4503599627370496 M) as [H|H|H];
      [reflexivity | reflexivity |].
    pose proof (H : Zpos M < 4503599627370496) as H'. clear H. lia.
  - destruct (Z.compare_spec E (-52)) as [->|Hlt|Hgt]; [| lia | reflexivity].
    rewrite Pos.compare_cont_spec. cbn [Pos.switch_Eq].
    destruct (Pos.compare_spec M 4503599627370496) as [H|H|H];
      [reflexivity | | reflexivity].
    pose proof (H : Zpos M < 4503599627370496) as H'. clear H. lia.
Qed.

Lemma SFmul_x7FFF_exact (s : bool) (m : positive) (e : Z) :
  let d := Zpos (digits2_pos m) in
  let d' := Zpos (digits2_pos (m * 32767)) in
  d <= 24 -> -149 <= e <= 104 ->
  SFmul prec emax (S754_finite s (Z.to_pos (Zpos m * 2 ^ (53 - d))) (e - (53 - d))) x7FFF
  = S754_finite s (Z.to_pos (Zpos (m * 32767) * 2 ^ (53 - d'))) (e - (53 - d')).
Proof.
  intros d d' Hd He.
  pose proof (digits2_pos_bounds m) as [Blo Bhi]. fold d in Blo, Bhi.
  pose proof (digits2_pos_bounds (m * 32767)) as [Plo Phi]. fold d' in Plo, Phi.
  assert (Hd1 : 0 < d') by (unfold d'; lia).
  assert (Hm24 : Zpos m < 2 ^ 24).
  { assert (2 ^ d <= 2 ^ 24) by (apply Z.pow_le_mono_r; lia). lia. }
  assert (Hd' : d' <= 39).
  { assert (d' - 1 < 39); [|lia].
    apply (pow2_lt_exponent _ _ (Zpos (m * 32767))); [lia|].
    split; [assumption|]. change (2 ^ 39) with (2 ^ 24 * 32768). lia. }
  unfold x7FFF. cbn [SFmul xorb]. rewrite xorb_false_r.
  set (j := 38 + d' - d).
  assert (HP : Zpos (Z.to_pos (Zpos m * 2 ^ (53 - d)) * 9006924376834048)
               = Zpos (Z.to_pos (Zpos (m * 32767) * 2 ^ (53 - d'))) * 2 ^ j).
  { rewrite Pos2Z.inj_mul, !Zpos_shift by lia.
    change (Zpos 9006924376834048) with (32767 * 2 ^ 38).
    rewrite Pos2Z.inj_mul.
    assert (Hpow : 2 ^ (53 - d) * 2 ^ 38 = 2 ^ (53 - d') * 2 ^ j).
    { rewrite <- !Z.pow_add_r by (unfold j; lia). f_equal. unfold j. lia. }
    transitivity (Zpos m * 32767 * (2 ^ (53 - d) * 2 ^ 38)); [ring|].
    rewrite Hpow. ring. }
  rewrite HP, binary_round_aux_exact.
  - f_equal. unfold j. lia.
  - unfold j. lia.
  - rewrite digits2_pos_shift by lia. fold d'. lia.
  - unfold j. lia.
Qed.

Lemma ToInt16_of_truncate (x : spec_float) :
  - 2 ^ 15 <= truncate x < 2 ^ 15 -> ToInt16 x = truncate x.
Proof.
  unfold ToInt16. change (2 ^ 15) with 32768. change (2 ^ 16) with 65536.
  intros H. generalize dependent (truncate x). intros t H.
  destruct (Z.leb_spec 32768 (t mod 65536)); Z.div_mod_to_equations; lia.
Qed.

Lemma truncate_scaled (s : bool) (p : positive) (k a : Z) :
  0 <= k -> 0 < a ->
  truncate (S754_finite s (Z.to_pos (Zpos p * 2 ^ k)) (- (a + k)))
  = if s then - (Zpos p / 2 ^ a) else Zpos p / 2 ^ a.
Proof.
  intros Hk Ha. unfold truncate.
  destruct (- (a + k)) as [|q|q] eqn:Eq; try lia.
  rewrite Z.shiftr_div_pow2, Zpos_shift by lia.
  replace (Zpos q) with (a + k) by lia.
  rewrite Z.pow_add_r by lia.
  assert (0 < 2 ^ a) by (apply Z.pow_pos_nonneg; lia).
  assert (0 < 2 ^ k) by (apply Z.pow_pos_nonneg; lia).
  rewrite Z.div_mul_cancel_r by lia. reflexivity.
Qed.

Lemma convert_sample_finite_small (s : bool) (m : positive) (e : Z) :
  valid_binary f32_prec f32_emax (S754_finite s m e) = true ->
  Zpos (digits2_pos m) + e <= 0 ->
  convert_sample (S754_finite s m e)
  = if s then - (Zpos m * 32767 / 2 ^ (- e)) else Zpos m * 32767 / 2 ^ (- e).
Proof.
  intros Hv Hsmall. pose proof (valid_binary32_bounds _ _ _ Hv) as [Hd He].
  unfold convert_sample.
  rewrite Number_of_Z_1, Number_of_Z_m1, Number_of_Z_32767, f32_to_Number_finite by assumption.
  set (d := Zpos (digits2_pos m)) in *.
  rewrite clamp_small by lia.
  rewrite SFmul_x7FFF_exact by (fold d; lia).
  set (d' := Zpos (digits2_pos (m * 32767))).
  pose proof (digits2_pos_bounds m) as [Blo Bhi]. fold d in Blo, Bhi.
  pose proof (digits2_pos_bounds (m * 32767)) as [Plo Phi]. fold d' in Plo, Phi.
  assert (Hd1 : 0 < d) by (unfold d; lia).
  assert (Hd1' : 0 < d') by (unfold d'; lia).
  assert (Hm24 : Zpos m < 2 ^ 24).
  { assert (2 ^ d <= 2 ^ 24) by (apply Z.pow_le_mono_r; lia). lia. }
  assert (Hd' : d' <= 39).
  { assert (d' - 1 < 39); [|lia].
    apply (pow2_lt_exponent _ _ (Zpos (m * 32767))); [lia|].
    split; [assumption|]. change (2 ^ 39) with (2 ^ 24 * 32768). lia. }
  assert (Hme : Zpos m < 2 ^ (- e)).
  { assert (2 ^ d <= 2 ^ (- e)) by (apply Z.pow_le_mono_r; lia). lia. }
  assert (Hpe : 0 < 2 ^ (- e)) by (apply Z.pow_pos_nonneg; lia).
  assert (Hq : 0 <= Zpos m * 32767 / 2 ^ (- e) < 32767).
  { split; [apply Z.div_pos; lia|]. apply Z.div_lt_upper_bound; nia. }
  assert (Htr : truncate (S754_finite s (Z.to_pos (Zpos (m * 32767) * 2 ^ (53 - d'))) (e - (53 - d')))
          = if s then - (Zpos m * 32767 / 2 ^ (- e)) else Zpos m * 32767 / 2 ^ (- e)).
  { replace (e - (53 - d')) with (- (- e + (53 - d'))) by lia.
    rewrite truncate_scaled by lia. rewrite Pos2Z.inj_mul. reflexivity. }
  rewrite ToInt16_of_truncate; rewrite Htr; [reflexivity|].
  change (2 ^ 15) with 32768. destruct s; lia.
Qed.

Lemma convert_sample_finite_large (s : bool) (m : positive) (e : Z) :
  valid_binary f32_prec f32_emax (S754_finite s m e) = true ->
  0 < Zpos (digits2_pos m) + e ->
  convert_sample (S754_finite s m e) = if s then -32767 else 32767.
Proof.
  intros Hv Hlarge. pose proof (valid_binary32_bounds _ _ _ Hv) as [Hd He].
  unfold convert_sample.
  rewrite Number_of_Z_1, Number_of_Z_m1, Number_of_Z_32767, f32_to_Number_finite by assumption.
  rewrite clamp_large.
  - destruct s; reflexivity.
  - rewrite digits2_pos_shift by lia. lia.
  - lia.
Qed.

Lemma quot_signed (s : bool) (a b : Z) :
  0 <= a -> 0 < b ->
  Z.quot (if s then - a else a) b = if s then - (a / b) else a / b.
Proof.
  intros Ha Hb. destruct s.
  - rewrite Z.quot_opp_l, Z.quot_div_nonneg by lia. reflexivity.
  - apply Z.quot_div_nonneg; lia.
Qed.

Lemma spec_finite_small (s : bool) (m : positive) (e : Z) :
  Zpos (digits2_pos m) + e <= 0 ->
  spec_sample_i16 (Real (F2Q (S754_finite s m e)))
  = if s then - (Zpos m * 32767 / 2 ^ (- e)) else Zpos m * 32767 / 2 ^ (- e).
Proof.
  intros Hsmall.
  pose proof (digits2_pos_bounds m) as [Blo Bhi].
  set (d := Zpos (digits2_pos m)) in *.
  assert (Hd1 : 0 < d) by (unfold d; lia).
  destruct e as [|k|k]; try lia.
  assert (Hme : Zpos m < 2 ^ Zpos k).
  { assert (2 ^ d <= 2 ^ Zpos k) by (apply Z.pow_le_mono_r; lia). lia. }
  change (- Zneg k) with (Zpos k).
  unfold spec_sample_i16, clamp, F2Q, round_toward_zero, Qle_bool.
  cbn [Qnum Qden]. rewrite Pos2Z.inj_pow.
  set (n := if s then Zneg m else Zpos m).
  assert (Hn : n = if s then - Zpos m else Zpos m) by (destruct s; reflexivity).
  clearbody n.
  assert (Hpk : 0 < 2 ^ Zpos k) by (apply Z.pow_pos_nonneg; lia).
  destruct (Z.leb_spec (n * 1) (-1 * 2 ^ Zpos k)); [destruct s; lia|].
  destruct (Z.leb_spec (1 * 2 ^ Zpos k) (n * 1)).
  - exfalso. destruct s; lia.
  - unfold Qmult. cbn [Qnum Qden]. rewrite Pos.mul_1_r, Pos2Z.inj_pow.
    rewrite Hn. replace ((if s then - Zpos m else Zpos m) * 32767)
      with (if s then - (Zpos m * 32767) else Zpos m * 32767) by (destruct s; lia).
    apply quot_signed; lia.
Qed.

Lemma spec_finite_large (s : bool) (m : positive) (e : Z) :
  0 < Zpos (digits2_pos m) + e ->
  spec_sample_i16 (Real (F2Q (S754_finite s m e))) = if s then -32767 else 32767.
Proof.
  intros Hlarge.
  pose proof (digits2_pos_bounds m) as [Blo Bhi].
  set (d := Zpos (digits2_pos m)) in *.
  assert (Hd1 : 0 < d) by (unfold d; lia).
  unfold spec_sample_i16, clamp, F2Q, Qle_bool.
  set (n := if s then Zneg m else Zpos m).
  assert (Hn : n = if s then - Zpos m else Zpos m) by (destruct s; reflexivity).
  clearbody n.
  assert (Hone : forall q : Q,
    (if s then Qnum q * 1 <=? -1 * Zpos (Qden q) else 1 * Zpos (Qden q) <=? Qnum q * 1) = true ->
    (if s then true else negb (Qnum q * 1 <=? -1 * Zpos (Qden q))) = true ->
    round_toward_zero
      ((if Qnum q * Zpos 1 <=? Qnum (-1) * Zpos (Qden q) then (-1)%Q
        else if Qnum 1 * Zpos (Qden q) <=? Qnum q * Zpos 1 then 1%Q else q) * 32767)%Q
    = if s then -32767 else 32767).
  { intros q H1 H2. cbn [Qnum] in *. destruct s.
    - rewrite H1. reflexivity.
    - apply negb_true_iff in H2. rewrite H2, H1. reflexivity. }
  destruct e as [|k|k].
  - apply Hone; cbn [inject_Z Qnum Qden]; destruct s;
      try reflexivity; try apply negb_true_iff; try apply Z.leb_le; try apply Z.leb_gt; lia.
  - assert (0 < 2 ^ Zpos k) by (apply Z.pow_pos_nonneg; lia).
    apply Hone; cbn [inject_Z Qnum Qden]; destruct s;
      try reflexivity; try apply negb_true_iff; try apply Z.leb_le; try apply Z.leb_gt; nia.
  - assert (Hme : 2 ^ Zpos k <= Zpos m).
    { assert (2 ^ Zpos k <= 2 ^ (d - 1)) by (apply Z.pow_le_mono_r; lia). lia. }
    assert (0 < 2 ^ Zpos k) by (apply Z.pow_pos_nonneg; lia).
    apply Hone; cbn [Qnum Qden]; rewrite ?Pos2Z.inj_pow; destruct s;
      try reflexivity; try apply negb_true_iff; try apply Z.leb_le; try apply Z.leb_gt; lia.
Qed.

Lemma convert_sample_meets_formula (x : spec_float) (v : sample_value) :
  valid_binary f32_prec f32_emax x = true ->
  value_of x = Some v ->
  convert_sample x = spec_sample_i16 v.
Proof.
  intros Hv Hx. destruct x as [s|s| |s m e].
  - injection Hx as <-. destruct s; reflexivity.
  - injection Hx as <-. destruct s; reflexivity.
  - discriminate.
  - injection Hx as <-.
    change (convert_sample (S754_finite s m e)
            = spec_sample_i16 (Real (F2Q (S754_finite s m e)))).
    destruct (Z_le_gt_dec (Zpos (digits2_pos m) + e) 0).
    + rewrite convert_sample_finite_small, spec_finite_small by assumption. reflexivity.
    + rewrite convert_sample_finite_large, spec_finite_large by (assumption || lia). reflexivity.
Qed.

(** ** The frame: the loop, and the bytes of the buffer *)

Lemma fill_spec (inputData : list spec_float) :
  forall (remaining i : nat) (pcmData : list Z),
    length pcmData = length inputData ->
    (i + remaining = length inputData)%nat ->
    fill inputData pcmData i remaining
    = take i pcmData ++ map convert_sample (drop i inputData).
Proof.
  induction remaining as [|r IH]; intros i pcm Hlen Hi; cbn [fill].
  - rewrite take_ge, drop_ge by lia. cbn. by rewrite app_nil_r.
  - destruct (lookup_lt_is_Some_2 inputData i) as [x Hx]; [lia|]. rewrite Hx.
    rewrite IH by (rewrite ?length_insert; lia).
    rewrite (take_S_r _ _ (convert_sample x)) by (apply list_lookup_insert_eq; lia).
    rewrite take_insert_ge by lia. rewrite (drop_S _ _ _ Hx). cbn.
    by rewrite <- app_assoc.
Qed.

Lemma to_pcm_map (inputData : list spec_float) :
  to_pcm inputData = map convert_sample inputData.
Proof.
  unfold to_pcm. rewrite fill_spec by (rewrite ?length_replicate; lia).
  reflexivity.
Qed.

Lemma length_buffer (pcmData : list Z) :
  length (buffer pcmData) = (2 * length pcmData)%nat.
Proof.
  induction pcmData as [|v l IH]; [reflexivity|].
  cbn [buffer flat_map Int16_bytes app length] in *. fold (buffer l). lia.
Qed.

Lemma buffer_lookup (pcmData : list Z) : forall i v,
  pcmData !! i = Some v ->
  buffer pcmData !! (2 * i)%nat = Some ((v mod 2 ^ 16) mod 256)
  /\ buffer pcmData !! (2 * i + 1)%nat = Some ((v mod 2 ^ 16) / 256).
Proof.
  induction pcmData as [|u l IH]; intros i v Hi; [discriminate|].
  destruct i as [|i].
  - injection Hi as ->. split; reflexivity.
  - replace (2 * S i)%nat with (S (S (2 * i))) by lia.
    replace (S (S (2 * i)) + 1)%nat with (S (S (2 * i + 1))) by lia.
    apply (IH i v Hi).
Qed.

(** C1 (PCM conversion).  For every sample [x] of a captured frame that is
    a number (any binary32 datum but NaN, [v] being the number it denotes),
    the Int16 sample stored at the same index is
    [round_toward_zero(clamp(x, -1, 1) * 32767)]; its two bytes stand at
    positions [2i] and [2i+1] of the buffer, low byte first; the buffer has
    two bytes per sample, so 8192 bytes for a frame of 4096; and [1.0],
    [-1.0], [0.0] give [32767], [-32767], [0]. *)
Theorem pcm_conversion
  (inputData : list spec_float) (i : nat) (x : spec_float) (v : sample_value) :
  inputData !! i = Some x ->
  valid_binary f32_prec f32_emax x = true ->
  value_of x = Some v ->
  to_pcm inputData !! i = Some (spec_sample_i16 v)
  /\ buffer (to_pcm inputData) !! (2 * i)%nat
     = Some ((spec_sample_i16 v mod 2 ^ 16) mod 256)
  /\ buffer (to_pcm inputData) !! (2 * i + 1)%nat
     = Some ((spec_sample_i16 v mod 2 ^ 16) / 256)
  /\ length (buffer (to_pcm inputData)) = (2 * length inputData)%nat
  /\ (Z.of_nat (length inputData) = 4096 ->
      Z.of_nat (length (buffer (to_pcm inputData))) = 8192)
  /\ convert_sample f32_one = 32767
  /\ convert_sample f32_minus_one = -32767
  /\ convert_sample (S754_zero false) = 0.
Proof.
  intros Hi Hvalid Hv.
  assert (Hpcm : to_pcm inputData !! i = Some (spec_sample_i16 v)).
  { rewrite to_pcm_map, list_lookup_fmap_Some. exists x. split; [|assumption].
    symmetry. by apply convert_sample_meets_formula. }
  assert (Hlen : length (buffer (to_pcm inputData)) = (2 * length inputData)%nat).
  { by rewrite length_buffer, to_pcm_map, length_map. }
  destruct (buffer_lookup _ _ _ Hpcm) as [Hlo Hhi].
  repeat split; try assumption; try reflexivity.
  intros H4096. rewrite Hlen. lia.
Qed.

Lemma pcm_conversion_witness :
  to_pcm [f32_one; f32_minus_one; S754_infinity false] !! 1%nat
    = Some (spec_sample_i16 (Real (F2Q f32_minus_one)))
  /\ buffer (to_pcm [f32_one; f32_minus_one; S754_infinity false]) !! (2 * 1)%nat
     = Some ((spec_sample_i16 (Real (F2Q f32_minus_one)) mod 2 ^ 16) mod 256)
  /\ buffer (to_pcm [f32_one; f32_minus_one; S754_infinity false]) !! (2 * 1 + 1)%nat
     = Some ((spec_sample_i16 (Real (F2Q f32_minus_one)) mod 2 ^ 16) / 256)
  /\ length (buffer (to_pcm [f32_one; f32_minus_one; S754_infinity false]))
     = (2 * length [f32_one; f32_minus_one; S754_infinity false])%nat
  /\ (Z.of_nat (length [f32_one; f32_minus_one; S754_infinity false]) = 4096 ->
      Z.of_nat (length (buffer (to_pcm [f32_one; f32_minus_one; S754_infinity false])))
      = 8192)
  /\ convert_sample f32_one = 32767
  /\ convert_sample f32_minus_one = -32767
  /\ convert_sample (S754_zero false) = 0.
Proof.
  apply (pcm_conversion [f32_one; f32_minus_one; S754_infinity false] 1
           f32_minus_one (Real (F2Q f32_minus_one))); reflexivity.
Defined.

(** ** Strings: [includes] finds exactly the substrings *)

Section StringFacts.
Import JS.
Local Open Scope string_scope.

Lemma prefix_iff (n h : string) :
  String.prefix n h = true <-> exists b, h = n ++ b.
Proof.
  revert h. induction n as [|c n IH]; intros h.
  - split; [intros _; exists h; reflexivity | intros _; destruct h; reflexivity].
  - destruct h as [|c' h]; cbn [String.prefix].
    + split; [discriminate | intros [b Hb]; discriminate].
    + destruct (ascii_dec c c') as [->|Hne].
      * rewrite IH. split; intros [b Hb]; exists b.
        -- cbn. by rewrite Hb.
        -- cbn in Hb. by injection Hb.
      * split; [discriminate|]. intros [b Hb]. cbn in Hb. injection Hb as Hc _.
        by destruct Hne.
Qed.

Lemma includes_iff (n h : string) :
  includes n h = true <-> exists a b, h = a ++ n ++ b.
Proof.
  induction h as [|c h IH].
  - cbn [includes]. rewrite orb_false_r, prefix_iff. split.
    + intros [b Hb]. exists "", b. exact Hb.
    + intros [a [b Hab]]. destruct a; [by exists b | discriminate].
  - cbn [includes]. rewrite orb_true_iff, prefix_iff, IH. split.
    + intros [[b Hb] | [a [b Hab]]].
      * exists "", b. exact Hb.
      * exists (String c a), b. cbn. by rewrite Hab.
    + intros [a [b Hab]]. destruct a as [|c' a].
      * left. by exists b.
      * right. cbn in Hab. injection Hab as _ Hab. by exists a, b.
Qed.

Lemma includes_middle (n a b : string) : includes n (a ++ n ++ b) = true.
Proof. apply includes_iff. by exists a, b. Qed.

Lemma append_assoc (a b c : string) : (a ++ b) ++ c = a ++ b ++ c.
Proof. induction a as [|x a IH]; cbn; [reflexivity | by rewrite IH]. Qed.

Lemma append_nil_r (a : string) : a ++ "" = a.
Proof. induction a as [|x a IH]; cbn; [reflexivity | by rewrite IH]. Qed.

End StringFacts.

(** ** The token fetch *)

Section ApiFacts.
Import JS Api.
Local Open Scope string_scope.

Variable E : Engine.
Variables (env_API_BASE_URL env_BEARER_TOKEN : option string).
Variable fetch : Request -> result Response.

Local Abbreviation fetchToken :=
  (fetchWebSocketToken E env_API_BASE_URL env_BEARER_TOKEN fetch).
Local Abbreviation request_of authToken :=
  (grant_request E env_API_BASE_URL (or_else authToken (BEARER_TOKEN env_BEARER_TOKEN))).

(** The error thrown for a failed response passes the [catch] unchanged. *)
Lemma on_catch_rethrows (r : Response) :
  on_catch env_API_BASE_URL (mkError "Error" (failure_message E r))
  = mkError "Error" (failure_message E r).
Proof.
  unfold on_catch. cbn [name message].
  change (String.eqb "Error" "TypeError") with false. cbn [andb].
  replace (includes "Failed to fetch WebSocket token" (failure_message E r)) with true;
    [reflexivity|].
  symmetry. apply includes_iff.
  exists "", (": " ++ string_of_Z (status r) ++ " " ++ statusText r ++ ". "
                ++ "Error: " ++ errorText E r).
  reflexivity.
Qed.

Lemma failure_message_embeds (r : Response) :
  includes (string_of_Z (status r)) (failure_message E r) = true
  /\ includes (statusText r) (failure_message E r) = true
  /\ includes (errorText E r) (failure_message E r) = true.
Proof.
  unfold failure_message. repeat split; apply includes_iff.
  - exists "Failed to fetch WebSocket token: ",
      (" " ++ statusText r ++ ". " ++ "Error: " ++ errorText E r). reflexivity.
  - exists ("Failed to fetch WebSocket token: " ++ string_of_Z (status r) ++ " "),
      (". " ++ "Error: " ++ errorText E r).
    rewrite !append_assoc. reflexivity.
  - exists ("Failed to fetch WebSocket token: " ++ string_of_Z (status r) ++ " "
              ++ statusText r ++ ". " ++ "Error: "), "".
    rewrite append_nil_r, !append_assoc. reflexivity.
Qed.

(** A [TypeError] reaches the caller as the network error when its message
    mentions [fetch], and as the unexpected error otherwise. *)
Lemma on_catch_TypeError (t : type_error) :
  on_catch env_API_BASE_URL (TypeError E t)
  = mkError "Error"
      (if includes "fetch" (TypeError_message E t)
       then "Network error: Could not reach " ++ grant_url env_API_BASE_URL ++ ". "
            ++ "Please check your internet connection and ensure the API is accessible. "
            ++ "Original error: " ++ TypeError_message E t
       else "Unexpected error fetching WebSocket token: " ++ TypeError_message E t).
Proof.
  unfold on_catch, TypeError. cbn [name message].
  change (String.eqb "TypeError" "TypeError") with true. cbn [andb].
  destruct (includes "fetch" (TypeError_message E t)) eqn:Hf; [reflexivity|].
  destruct (includes "Failed to fetch WebSocket token" (TypeError_message E t)) eqn:Hg;
    [|reflexivity].
  apply includes_iff in Hg as (a & b & Hab).
  assert (Hin : includes "fetch" (TypeError_message E t) = true).
  { apply includes_iff. exists (a ++ "Failed to "), (" WebSocket token" ++ b).
    rewrite Hab, !append_assoc. reflexivity. }
  congruence.
Qed.

(** The success log goes through exactly for a body that is not nullish and
    whose [access_token] is nullish or a string. *)
Lemma success_log_passes (data : value) :
  success_log data = None
  <-> nullish data = false
      /\ (nullish (opt_get data "access_token") = true
          \/ is_string (opt_get data "access_token") = true).
Proof.
  unfold success_log, opt_get.
  destruct data as [| |b|x|s|xs|fields]; cbn [get nullish];
    try (split; [discriminate | by intros [? _]]).
  - cbn. split; auto.
  - cbn. split; auto.
  - destruct (match index_of_key "access_token" with Some _ => _ | None => _ end)
      as [| |b'|x'|s'|xs'|fields']; cbn; split; intros H; auto; try discriminate;
      destruct H as [_ [H|H]]; discriminate.
  - destruct (match index_of_key "access_token" with Some _ => _ | None => _ end)
      as [| |b'|x'|s'|xs'|fields']; cbn; split; intros H; auto; try discriminate;
      destruct H as [_ [H|H]]; discriminate.
  - destruct (lookup "access_token" fields)
      as [| |b'|x'|s'|xs'|fields']; cbn; split; intros H; auto; try discriminate;
      destruct H as [_ [H|H]]; discriminate.
Qed.

(** C2, as amended.  The fetch fails exactly when [fetch] itself rejects,
    when the status is not a success, when reading a success body as JSON
    fails, or when the success log throws on the parsed body, which it does
    for a body that is [null] and for one whose [access_token] is neither
    nullish nor a string; any other body that parses is returned as it is,
    whatever its shape.  The [TypeError] of the log reaches the caller
    through the [catch], as the unexpected error unless its message mentions
    [fetch].  On a non-success status the thrown error is the one built from
    the status and the body, whose message holds the status, the status text
    and the body text; for a 401 with the JSON body [{error: 'invalid
    token'}] the message contains [401] and [invalid token]. *)
Theorem fetch_token_failure (authToken : option string) :
  let out := snd (fetchToken authToken) in
  (fails out = true <->
     match fetch (request_of authToken) with
     | Threw _ => True
     | Ok r => ok r = false \/ fails (json r) = true
               \/ exists data, json r = Ok data /\ success_log data <> None
     end)
  /\ (forall r data,
        fetch (request_of authToken) = Ok r -> ok r = true -> json r = Ok data ->
        (success_log data = None -> out = Ok data)
        /\ (forall t, success_log data = Some t ->
              out = Threw (mkError "Error"
                (if includes "fetch" (TypeError_message E t)
                 then "Network error: Could not reach " ++ grant_url env_API_BASE_URL ++ ". "
                      ++ "Please check your internet connection and ensure the API is accessible. "
                      ++ "Original error: " ++ TypeError_message E t
                 else "Unexpected error fetching WebSocket token: "
                      ++ TypeError_message E t))))
  /\ (forall data,
        success_log data = None
        <-> nullish data = false
            /\ (nullish (opt_get data "access_token") = true
                \/ is_string (opt_get data "access_token") = true))
  /\ (forall r,
        fetch (request_of authToken) = Ok r -> ok r = false ->
        out = Threw (mkError "Error" (failure_message E r))
        /\ includes (string_of_Z (status r)) (failure_message E r) = true
        /\ includes (statusText r) (failure_message E r) = true
        /\ includes (errorText E r) (failure_message E r) = true)
  /\ (forall r,
        fetch (request_of authToken) = Ok r ->
        status r = 401 ->
        content_type r = Some "application/json" ->
        json r = Ok (VObj [("error", VStr "invalid token")]) ->
        exists msg,
          out = Threw (mkError "Error" msg)
          /\ includes "401" msg = true
          /\ includes "invalid token" msg = true).
Proof.
  cbn zeta.
  assert (Hout : snd (fetchToken authToken)
                 = match after_fetch E (fetch (request_of authToken)) with
                   | Ok data => Ok data
                   | Threw error => Threw (on_catch env_API_BASE_URL error)
                   end) by reflexivity.
  rewrite Hout. clear Hout. unfold after_fetch.
  assert (Hfail : forall r, fetch (request_of authToken) = Ok r -> ok r = false ->
            match
              match fetch (request_of authToken) with
              | Ok response =>
                  if negb (ok response)
                  then Threw (mkError "Error" (failure_message E response))
                  else match json response with
                       | Ok data =>
                           match success_log data with
                           | Some t => Threw (TypeError E t)
                           | None => Ok data
                           end
                       | Threw e => Threw e
                       end
              | Threw e => Threw e
              end
            with
            | Ok data => Ok data
            | Threw error => Threw (on_catch env_API_BASE_URL error)
            end = Threw (mkError "Error" (failure_message E r))).
  { intros r Hr Hok. rewrite Hr, Hok. cbn [negb]. by rewrite on_catch_rethrows. }
  split; [|split; [|split; [|split]]].
  - destruct (fetch (request_of authToken)) as [r|e]; [|by split].
    destruct (ok r) eqn:Hok; cbn [negb].
    + destruct (json r) as [data|e]; cbn [fails].
      * destruct (success_log data) as [t|] eqn:Hlog; cbn [fails]; split; intros H; auto.
        -- right. right. exists data. split; [reflexivity | by rewrite Hlog].
        -- destruct H as [H | [H | (d & [= <-] & H)]]; try discriminate.
           by destruct H.
      * split; auto.
    + cbn [fails]. split; auto.
  - intros r data Hr Hok Hjson. rewrite Hr, Hok, Hjson. cbn [negb]. split.
    + by intros ->.
    + intros t ->. by rewrite on_catch_TypeError.
  - apply success_log_passes.
  - intros r Hr Hok. split; [by apply Hfail|]. apply failure_message_embeds.
  - intros r Hr Hst Hct Hjson.
    assert (Hok : ok r = false) by (unfold ok; rewrite Hst; reflexivity).
    exists (failure_message E r). split; [by apply Hfail|].
    pose proof (failure_message_embeds r) as (H1 & _ & H3).
    rewrite Hst in H1. split; [exact H1|].
    assert (Htxt : errorText E r
                   = to_display (stringify E (VObj [("error", VStr "invalid token")]))).
    { unfold errorText, errorData. rewrite Hct, Hjson. reflexivity. }
    apply includes_iff. apply includes_iff in H3 as (a & b & Hab).
    rewrite Htxt in Hab.
    exists (a ++ String "{" (String dquote ("error" ++ String dquote (":" ++ String dquote "")))),
      (String dquote "}" ++ b).
    rewrite Hab. rewrite !append_assoc. reflexivity.
Qed.

(** C10.  The empty string as [authToken] is the omitted argument: the same
    request is sent and the same outcome returned. *)
Theorem fetch_empty_authToken :
  fetchWebSocketToken E env_API_BASE_URL env_BEARER_TOKEN fetch (Some "")
  = fetchWebSocketToken E env_API_BASE_URL env_BEARER_TOKEN fetch None.
Proof.
  unfold fetchWebSocketToken.
  change (or_else (Some "") (BEARER_TOKEN env_BEARER_TOKEN))
    with (or_else None (BEARER_TOKEN env_BEARER_TOKEN)).
  reflexivity.
Qed.

End ApiFacts.

(** C2 at the 401 response of the specification, and at a 200 response
    whose body is [null]: the success log throws on it. *)
Lemma fetch_token_failure_witness :
  (exists msg,
     snd (Api.fetchWebSocketToken Client.example_engine None None
            (fun _ => JS.Ok Api.response_401) None)
     = JS.Threw (JS.mkError "Error" msg)
     /\ JS.includes "401" msg = true
     /\ JS.includes "invalid token" msg = true)
  /\ snd (Api.fetchWebSocketToken Client.example_engine None None
            (fun _ => JS.Ok Api.response_200_null) None)
     = JS.Threw (JS.mkError "Error"
         "Unexpected error fetching WebSocket token: Cannot read properties of null (reading 'access_token')").
Proof.
  split.
  - apply (proj2 (proj2 (proj2 (proj2
             (fetch_token_failure Client.example_engine None None
                (fun _ => JS.Ok Api.response_401) None))))
             Api.response_401); reflexivity.
  - apply (proj2 (proj1 (proj2
             (fetch_token_failure Client.example_engine None None
                (fun _ => JS.Ok Api.response_200_null) None))
             Api.response_200_null JS.VNull eq_refl eq_refl eq_refl)
             (JS.ReadOfNullish JS.VNull "access_token")).
    reflexivity.
Defined.

(** C2 as stated fails: a 200 response whose body is the empty object is
    not of the credential shape, and the fetch does not fail on it. *)
Lemma fetch_accepts_unshaped_body :
  ~ (JS.fails (snd (Api.fetchWebSocketToken Client.example_engine None None
                      (fun _ => JS.Ok Api.response_200_empty) None)) = true
     <-> (Api.ok Api.response_200_empty = false
          \/ Api.parses_as_WebSocketToken Api.response_200_empty = false)).
Proof.
  intros [_ H]. discriminate H. right. reflexivity.
Qed.

(** ** The client: message routing *)

Section MessageFacts.
Import JS Client.

(** What the handler does with a message, by cases. *)
Lemma ws_onmessage_cases (data : value) (w : World) :
  ws_onmessage (Some data) w =
  match get data "error" with
  | None => w
  | Some err =>
      if truthy err then w
      else if truthy (transcript_of data) then
             if truthy (opt_get data "is_final")
             then set_interimTranscript (VStr "")
                    (set_transcript (transcript w ++ [transcript_of data]) w)
             else set_interimTranscript (transcript_of data) w
           else w
  end.
Proof. reflexivity. Qed.

(** C5, as amended.  For a parsed message with no truthy [error] member
    whose transcript is truthy (a non-empty string): when [is_final] is
    falsy the interim segment becomes the transcript and the finalized
    sequence is unchanged; when it is truthy the transcript is appended and
    the interim segment cleared.  A message whose transcript is missing or
    empty, or that has a truthy [error], changes neither; nor does a frame
    that does not parse. *)
Theorem message_routing (w : World) (data err : value) :
  get data "error" = Some err ->
  let t := transcript_of data in
  let w' := ws_onmessage (Some data) w in
  (truthy err = false -> truthy t = true -> truthy (opt_get data "is_final") = false ->
     interimTranscript w' = t /\ transcript w' = transcript w)
  /\ (truthy err = false -> truthy t = true -> truthy (opt_get data "is_final") = true ->
        transcript w' = transcript w ++ [t] /\ interimTranscript w' = VStr "")
  /\ (truthy t = false -> w' = w)
  /\ (truthy err = true -> w' = w)
  /\ ws_onmessage None w = w.
Proof.
  intros Herr t w'. subst w'. rewrite ws_onmessage_cases, Herr. fold t.
  destruct w as [cs tr it sv lg wr tk asr acr apr so st cx pr ef ac].
  split; [|split; [|split; [|split]]].
  - intros -> -> ->. split; reflexivity.
  - intros -> -> ->. split; reflexivity.
  - intros ->. by destruct (truthy err).
  - intros ->. reflexivity.
  - reflexivity.
Qed.

Lemma message_routing_witness :
  let data := message (VStr "hi there") true in
  let w := set_interimTranscript (VStr "hi") initial in
  let t := transcript_of data in
  let w' := ws_onmessage (Some data) w in
  (truthy VUndefined = false -> truthy t = true ->
     truthy (opt_get data "is_final") = false ->
     interimTranscript w' = t /\ transcript w' = transcript w)
  /\ (truthy VUndefined = false -> truthy t = true ->
        truthy (opt_get data "is_final") = true ->
        transcript w' = transcript w ++ [t] /\ interimTranscript w' = VStr "")
  /\ (truthy t = false -> w' = w)
  /\ (truthy VUndefined = true -> w' = w)
  /\ ws_onmessage None w = w.
Proof.
  apply (message_routing (set_interimTranscript (VStr "hi") initial)
           (message (VStr "hi there") true) VUndefined).
  reflexivity.
Defined.

(** C5 as stated fails: a final message whose transcript is the empty
    string appends nothing and leaves the interim segment as it was. *)
Lemma final_empty_transcript_not_routed :
  let data := message (VStr "") true in
  let w := set_interimTranscript (VStr "hi") initial in
  let w' := ws_onmessage (Some data) w in
  transcript_of data = VStr ""
  /\ opt_get data "is_final" = VBool true
  /\ ~ (transcript w' = transcript w ++ [transcript_of data]
        /\ interimTranscript w' = VStr "").
Proof.
  cbn zeta. split; [reflexivity|]. split; [reflexivity|].
  intros [H _]. discriminate H.
Qed.

(** C8.  A message whose transcript is the empty string is handled as one
    with no transcript: the state is left exactly as it was, whatever
    [is_final] is. *)
Theorem empty_transcript_is_no_transcript (w : World) (data : value) :
  transcript_of data = VStr "" \/ transcript_of data = VUndefined ->
  ws_onmessage (Some data) w = w.
Proof.
  intros Ht. rewrite ws_onmessage_cases.
  destruct (get data "error") as [err|]; [|reflexivity].
  destruct (truthy err); [reflexivity|].
  by destruct Ht as [-> | ->].
Qed.

Lemma empty_transcript_is_no_transcript_witness :
  ws_onmessage (Some (message (VStr "") true))
               (set_interimTranscript (VStr "hi") initial)
  = set_interimTranscript (VStr "hi") initial.
Proof.
  apply (empty_transcript_is_no_transcript
           (set_interimTranscript (VStr "hi") initial) (message (VStr "") true)).
  left. reflexivity.
Defined.

End MessageFacts.

(** ** The client: stop, clear and the handlers' frame *)

Section StopFacts.
Import JS Client.

Lemma stop_tracks_all_ended (s : MediaStream) (t : TrackState) :
  t ∈ stop_tracks s -> t = ended.
Proof.
  unfold stop_tracks. intros Ht. apply list_elem_of_fmap in Ht as (y & -> & _).
  reflexivity.
Qed.

(** [stopTranscription] field by field. *)
Lemma stop_fields (w : World) :
  let w' := stopTranscription w in
  connectionState w' = idle
  /\ transcript w' = transcript w
  /\ interimTranscript w' = interimTranscript w
  /\ service w' = service w
  /\ language w' = language w
  /\ wsTokenRef w' = wsTokenRef w
  /\ effects w' = effects w
  /\ activations w' = activations w
  /\ audioProcessorRef w' = None
  /\ audioContextRef w' = None
  /\ audioStreamRef w' = None
  /\ wsRef w' = match wsRef w with
                | Some id => if socket_open w id then None else Some id
                | None => None
                end
  /\ processors w' = match audioProcessorRef w with
                     | Some p => alter disconnect p (processors w)
                     | None => processors w
                     end
  /\ contexts w' = match audioContextRef w with
                   | Some c => alter (fun _ => closed) c (contexts w)
                   | None => contexts w
                   end
  /\ streams w' = match audioStreamRef w with
                  | Some s => alter stop_tracks s (streams w)
                  | None => streams w
                  end
  /\ sockets w' = match wsRef w with
                  | Some id => if socket_open w id
                               then alter close_socket id (sockets w)
                               else sockets w
                  | None => sockets w
                  end.
Proof.
  destruct w as [cs tr it sv lg wr tk asr acr apr so st cx pr ef ac].
  destruct apr, acr, asr, wr as [id|]; unfold stopTranscription, socket_open; cbn;
    try (destruct (so !! id) as [[u [] sent]|]; cbn); repeat split.
Qed.

Lemma world_eq (w1 w2 : World) :
  connectionState w1 = connectionState w2 -> transcript w1 = transcript w2 ->
  interimTranscript w1 = interimTranscript w2 -> service w1 = service w2 ->
  language w1 = language w2 -> wsRef w1 = wsRef w2 ->
  wsTokenRef w1 = wsTokenRef w2 -> audioStreamRef w1 = audioStreamRef w2 ->
  audioContextRef w1 = audioContextRef w2 ->
  audioProcessorRef w1 = audioProcessorRef w2 ->
  sockets w1 = sockets w2 -> streams w1 = streams w2 -> contexts w1 = contexts w2 ->
  processors w1 = processors w2 -> effects w1 = effects w2 ->
  activations w1 = activations w2 ->
  w1 = w2.
Proof. destruct w1, w2. cbn. intros. by subst. Qed.

Lemma stop_idempotent (w : World) :
  stopTranscription (stopTranscription w) = stopTranscription w.
Proof.
  destruct (stop_fields (stopTranscription w))
    as (H1 & H2 & H3 & H4 & H5 & H6 & H7 & H7' & H8 & H9 & H10 & H11 & H12 & H13 & H14 & H15).
  destruct (stop_fields w)
    as (G1 & _ & _ & _ & _ & _ & _ & _ & G8 & G9 & G10 & G11 & _ & _ & _ & G15).
  cbn zeta in *.
  assert (Hopen : forall id, wsRef (stopTranscription w) = Some id ->
                    socket_open (stopTranscription w) id = false).
  { intros id Hid. rewrite G11 in Hid. unfold socket_open in *. rewrite G15.
    destruct (wsRef w) as [id'|]; [|discriminate].
    destruct (match sockets w !! id' with
              | Some ws => is_OPEN (readyState ws)
              | None => false
              end) eqn:Ho; [discriminate|].
    injection Hid as <-. exact Ho. }
  apply world_eq; try assumption.
  - congruence.
  - rewrite H11. destruct (wsRef (stopTranscription w)) as [id|]; [|reflexivity].
    by rewrite Hopen.
  - congruence.
  - congruence.
  - congruence.
  - rewrite H15. destruct (wsRef (stopTranscription w)) as [id|]; [|reflexivity].
    by rewrite Hopen.
  - by rewrite H14, G10.
  - by rewrite H13, G9.
  - by rewrite H12, G8.
Qed.

(** C4, as amended.  [stopTranscription] is a total function of the state.
    It leaves the connection state idle and the three audio handles null,
    having disconnected the processor, closed the audio context and ended
    every track of the stream they named.  The socket is closed, and its
    handle nulled, when its [readyState] is OPEN; a socket in any other
    state is left as it is and stays referenced.  A second call changes
    nothing, and with nothing held the call only sets the state to idle. *)
Theorem stop_releases (w : World) :
  let w' := stopTranscription w in
  connectionState w' = idle
  /\ audio_released w' = true
  /\ (forall p, audioProcessorRef w = Some p ->
        processors w' !! p = disconnect <$> processors w !! p)
  /\ (forall c, audioContextRef w = Some c ->
        contexts w' !! c = (fun _ => closed) <$> contexts w !! c)
  /\ (forall s tracks, audioStreamRef w = Some s -> streams w' !! s = Some tracks ->
        forall t, t ∈ tracks -> t = ended)
  /\ (forall id, wsRef w = Some id -> socket_open w id = true ->
        wsRef w' = None /\ sockets w' !! id = close_socket <$> sockets w !! id)
  /\ (forall id, wsRef w = Some id -> socket_open w id = false ->
        wsRef w' = Some id /\ sockets w' = sockets w)
  /\ (wsRef w = None -> wsRef w' = None /\ sockets w' = sockets w)
  /\ stopTranscription w' = w'
  /\ (audio_released w = true -> wsRef w = None -> w' = set_connectionState idle w).
Proof.
  cbn zeta.
  destruct (stop_fields w)
    as (Hcs & _ & _ & _ & _ & _ & _ & _ & Hapr & Hacr & Hasr & Hwr & Hpr & Hcx & Hst & Hso).
  split; [|split; [|split; [|split; [|split; [|split; [|split; [|split; [|split]]]]]]]].
  - exact Hcs.
  - unfold audio_released. by rewrite Hapr, Hacr, Hasr.
  - intros p Hp. rewrite Hpr, Hp. apply list_lookup_alter_eq.
  - intros c Hc. rewrite Hcx, Hc. apply list_lookup_alter_eq.
  - intros s tracks Hs Htr t Ht. rewrite Hst, Hs, list_lookup_alter_eq in Htr.
    destruct (streams w !! s) as [x|]; [|discriminate].
    injection Htr as <-. by apply stop_tracks_all_ended in Ht.
  - intros id Hid Hopen. rewrite Hwr, Hso, Hid, Hopen.
    split; [reflexivity | apply list_lookup_alter_eq].
  - intros id Hid Hopen. by rewrite Hwr, Hso, Hid, Hopen.
  - intros Hid. by rewrite Hwr, Hso, Hid.
  - apply stop_idempotent.
  - destruct w as [cs tr it sv lg wr tk asr acr apr so st cx pr ef ac].
    unfold audio_released. cbn. intros Ha ->.
    by destruct apr, acr, asr.
Qed.

(** C4 at a connected session: the socket is open, so the call closes it
    and nulls the handle. *)
Lemma stop_releases_witness :
  let w := run example_platform initial [Start env_all_succeed; WsOpen 0%nat] in
  wsRef (stopTranscription w) = None
  /\ sockets (stopTranscription w) !! 0%nat = close_socket <$> sockets w !! 0%nat.
Proof.
  cbn zeta.
  apply (proj1 (proj2 (proj2 (proj2 (proj2 (proj2
           (stop_releases
              (run example_platform initial [Start env_all_succeed; WsOpen 0%nat]))))))));
    reflexivity.
Defined.

(** C4 as stated fails: stopped while the socket is still connecting, the
    component keeps the handle of a socket that is neither closed nor
    closing. *)
Lemma stop_keeps_connecting_socket :
  let w := initializeTranscription example_platform env_all_succeed initial in
  ~ (audio_released (stopTranscription w) = true
     /\ socket_released (stopTranscription w) = true).
Proof. cbn zeta. intros [_ H]. vm_compute in H. discriminate H. Qed.

End StopFacts.

(** ** The client: start *)

(** The stages of a start, computed on a state given field by field; the
    parts that depend on the platform stay folded. *)
Ltac world_simpl :=
  unfold Client.push, Client.put, Client.log, Client.failed, Client.initialize_catch,
    Client.with_stream, Client.with_socket, Client.with_audio, Client.with_microphone in *;
  cbn -[Client.token_requests Client.token_outcome Client.wsUrl_of Client.must_fetch
        Client.credential_step Client.fetch_prefix] in *.

Section StartFacts.
Import JS Client.
Variable P : Platform.

Local Abbreviation init := (initializeTranscription P).

Lemma lookup_snoc {A : Type} (l : list A) (x : A) : (l ++ [x]) !! length l = Some x.
Proof. by apply list_lookup_middle. Qed.

Lemma alter_snoc {A : Type} (f : A -> A) (l : list A) (x : A) :
  alter f (length l) (l ++ [x]) = l ++ [f x].
Proof.
  replace (length l) with (length l + 0)%nat by lia. by rewrite alter_app_r.
Qed.

Lemma insert_snoc {A : Type} (l : list A) (x y : A) :
  <[length l := y]> (l ++ [x]) = l ++ [y].
Proof.
  replace (length l) with (length l + 0)%nat by lia. by rewrite insert_app_r.
Qed.

(** One call of [fetchWebSocketToken] makes one request. *)
Lemma token_requests_one :
  token_requests P
  = [Api.grant_request (engine P) (env_API_BASE_URL P)
       (Api.or_else None (Api.BEARER_TOKEN (env_BEARER_TOKEN P)))].
Proof. reflexivity. Qed.

(** The three stretches of a call in direct style. *)
Lemma on_call_eq (now_ms : Z) (w : World) :
  on_call P now_ms w =
  let w0 := set_connectionState connecting w in
  match must_fetch P (wsTokenRef w) now_ms with
  | Threw e => push Returned (initialize_catch e w0)
  | Ok true =>
      push (AwaitingToken (language w) (service w))
        (set_effects (effects w ++ map HttpRequest (token_requests P)) w0)
  | Ok false =>
      push (AwaitingMedia (wsTokenRef w) (language w) (service w))
        (log CallGetUserMedia w0)
  end.
Proof.
  destruct w as [cs tr it sv lg wr tk asr acr apr so st cx pr ef ac].
  unfold on_call, try_catch, from_call, bind, gets, modify, lift, ret.
  cbn -[must_fetch token_requests].
  destruct (must_fetch P tk now_ms) as [[|]|e]; reflexivity.
Qed.

Lemma on_token_eq (k : nat) (answer : result Api.Response) (w : World) :
  on_token P k answer w =
  match activations w !! k with
  | Some (AwaitingToken language_ service_) =>
      match token_outcome P answer with
      | Threw e => put k Returned (initialize_catch e w)
      | Ok wsToken =>
          put k (AwaitingMedia wsToken language_ service_)
            (log CallGetUserMedia (set_wsTokenRef wsToken w))
      end
  | _ => w
  end.
Proof.
  destruct w as [cs tr it sv lg wr tk asr acr apr so st cx pr ef ac].
  unfold on_token. cbn [activations].
  destruct (ac !! k) as [[l s|tok l s|]|]; try reflexivity.
  unfold try_catch, from_token, bind, gets, modify, lift, ret.
  destruct (token_outcome P answer) as [tok|e]; reflexivity.
Qed.

Lemma on_media_eq (k : nat) (media : result nat) (socket audio : result unit) (w : World) :
  on_media P k media socket audio w =
  match activations w !! k with
  | Some (AwaitingMedia wsToken language_ service_) =>
      put k Returned
        match media with
        | Threw e => initialize_catch e w
        | Ok tracks =>
            let w2 := with_stream tracks w in
            match wsUrl_of P wsToken language_ service_ with
            | Threw e => initialize_catch e w2
            | Ok wsUrl =>
                match socket with
                | Threw e => failed e [NewWebSocket wsUrl] w2
                | Ok _ =>
                    let w3 := with_socket wsUrl w2 in
                    match audio with
                    | Threw e => failed e [NewAudioContext] w3
                    | Ok _ => with_audio (length (sockets w2)) w3
                    end
                end
            end
        end
  | _ => w
  end.
Proof.
  destruct w as [cs tr it sv lg wr tk asr acr apr so st cx pr ef ac].
  unfold on_media. cbn [activations].
  destruct (ac !! k) as [[l s|tok l s|]|]; try reflexivity.
  unfold try_catch, from_media, bind, gets, modify, lift, ret, call.
  destruct media as [n|e2]; [|reflexivity].
  cbn -[wsUrl_of].
  destruct (wsUrl_of P tok l s) as [wsUrl|e]; [|reflexivity].
  destruct socket as [[]|e3]; [|reflexivity].
  destruct audio as [[]|e4]; reflexivity.
Qed.

(** [initializeTranscription] in direct style. *)
Lemma initialize_eq (env : StartEnv) (w : World) :
  init env w =
  let base :=
    set_effects (effects w ++ fetch_prefix P env w) (set_connectionState connecting w) in
  push Returned
    match credential_step P env w with
    | Threw e => initialize_catch e base
    | Ok wsToken =>
        let w1 := set_wsTokenRef wsToken base in
        match media_outcome env with
        | Threw e => failed e [CallGetUserMedia] w1
        | Ok tracks =>
            let w2 := with_microphone tracks w1 in
            match wsUrl_of P wsToken (language w) (service w) with
            | Threw e => initialize_catch e w2
            | Ok wsUrl =>
                match socket_outcome env with
                | Threw e => failed e [NewWebSocket wsUrl] w2
                | Ok _ =>
                    let w3 := with_socket wsUrl w2 in
                    match audio_outcome env with
                    | Threw e => failed e [NewAudioContext] w3
                    | Ok _ => with_audio (length (sockets w2)) w3
                    end
                end
            end
        end
    end.
Proof.
  destruct w as [cs tr it sv lg wr tk asr acr apr so st cx pr ef ac].
  destruct env as [nw ans med soc aud].
  unfold initializeTranscription, credential_step, fetch_prefix.
  cbn [activations now fetch_outcome media_outcome socket_outcome audio_outcome
       wsTokenRef language service].
  rewrite on_call_eq. cbn [wsTokenRef language service].
  destruct (must_fetch P tk nw) as [[|]|e].
  - world_simpl. rewrite on_token_eq. world_simpl. rewrite lookup_snoc.
    destruct (token_outcome P ans) as [tok|e1].
    + world_simpl. rewrite on_media_eq. world_simpl. rewrite insert_snoc, lookup_snoc.
      destruct med as [n|e2]; [|world_simpl; by rewrite insert_snoc].
      cbn zeta. destruct (wsUrl_of P tok lg sv) as [wsUrl|e];
        [|world_simpl; by rewrite insert_snoc].
      destruct soc as [[]|e3]; [|world_simpl; by rewrite insert_snoc].
      destruct aud as [[]|e4]; world_simpl; by rewrite insert_snoc.
    + world_simpl. rewrite on_media_eq. world_simpl. rewrite insert_snoc, lookup_snoc.
      reflexivity.
  - world_simpl. rewrite on_token_eq. world_simpl. rewrite lookup_snoc.
    rewrite on_media_eq. world_simpl. rewrite lookup_snoc.
    destruct med as [n|e2]; [|world_simpl; by rewrite insert_snoc, app_nil_r].
    cbn zeta. destruct (wsUrl_of P tk lg sv) as [wsUrl|e];
      [|world_simpl; by rewrite insert_snoc, app_nil_r].
    destruct soc as [[]|e3]; [|world_simpl; by rewrite insert_snoc, app_nil_r].
    destruct aud as [[]|e4]; world_simpl; by rewrite insert_snoc, app_nil_r.
  - world_simpl. rewrite on_token_eq. world_simpl. rewrite lookup_snoc.
    rewrite on_media_eq. world_simpl. rewrite lookup_snoc.
    by rewrite app_nil_r.
Qed.

(** What each stretch of a call leaves alone. *)
Lemma on_call_frame (now_ms : Z) (w : World) :
  let w' := on_call P now_ms w in
  transcript w' = transcript w /\ interimTranscript w' = interimTranscript w
  /\ wsTokenRef w' = wsTokenRef w /\ held_unchanged w w'.
Proof.
  cbn zeta. rewrite on_call_eq. unfold held_unchanged.
  destruct w as [cs tr it sv lg wr tk asr acr apr so st cx pr ef ac].
  cbn [wsTokenRef]. destruct (must_fetch P tk now_ms) as [[|]|e]; world_simpl; repeat split.
Qed.

Lemma on_token_frame (k : nat) (answer : result Api.Response) (w : World) :
  let w' := on_token P k answer w in
  transcript w' = transcript w /\ interimTranscript w' = interimTranscript w
  /\ held_unchanged w w'.
Proof.
  cbn zeta. rewrite on_token_eq. unfold held_unchanged.
  destruct w as [cs tr it sv lg wr tk asr acr apr so st cx pr ef ac].
  cbn [activations]. destruct (ac !! k) as [[l s|tok l s|]|]; try by repeat split.
  destruct (token_outcome P answer) as [tok|e]; world_simpl; repeat split.
Qed.

Lemma on_media_frame (k : nat) (media : result nat) (socket audio : result unit)
  (w : World) :
  let w' := on_media P k media socket audio w in
  transcript w' = transcript w /\ interimTranscript w' = interimTranscript w
  /\ wsTokenRef w' = wsTokenRef w
  /\ List.filter is_request (effects w') = List.filter is_request (effects w)
  /\ (sockets w' = sockets w \/ exists sock, sockets w' = sockets w ++ [sock]).
Proof.
  cbn zeta. rewrite on_media_eq.
  destruct w as [cs tr it sv lg wr tk asr acr apr so st cx pr ef ac].
  cbn [activations]. destruct (ac !! k) as [[l s|tok l s|]|]; try by (repeat split; left).
  destruct media as [n|e2]; [|world_simpl; rewrite ?List.filter_app, ?app_nil_r; cbn;
                               rewrite ?app_nil_r; repeat split; by left].
  cbn zeta. destruct (wsUrl_of P tok l s) as [wsUrl|e];
    [|world_simpl; rewrite ?List.filter_app; cbn; rewrite ?app_nil_r; repeat split; by left].
  destruct socket as [[]|e3];
    [|world_simpl; rewrite ?List.filter_app; cbn; rewrite ?app_nil_r; repeat split; by left].
  destruct audio as [[]|e4];
    world_simpl; rewrite ?List.filter_app; cbn; rewrite ?app_nil_r; repeat split; eauto.
Qed.

(** What a start leaves alone: the transcript and the two settings. *)
Lemma initialize_frame (env : StartEnv) (w : World) :
  transcript (init env w) = transcript w
  /\ interimTranscript (init env w) = interimTranscript w
  /\ service (init env w) = service w
  /\ language (init env w) = language w.
Proof.
  rewrite initialize_eq.
  destruct w as [cs tr it sv lg wr tk asr acr apr so st cx pr ef ac].
  destruct env as [nw ans med soc aud]. cbn zeta.
  destruct (credential_step _ _ _) as [tok|e1]; [|by world_simpl].
  destruct med as [n|e2]; [|by world_simpl].
  cbn [language service media_outcome socket_outcome audio_outcome].
  destruct (wsUrl_of P tok lg sv) as [wsUrl|e]; [|by world_simpl].
  destruct soc as [[]|e3]; [|by world_simpl].
  destruct aud as [[]|e4]; by world_simpl.
Qed.

Lemma sockets_after_start (env : StartEnv) (w : World) :
  sockets (init env w) = sockets w
  \/ exists sock, sockets (init env w) = sockets w ++ [sock].
Proof.
  rewrite initialize_eq.
  destruct w as [cs tr it sv lg wr tk asr acr apr so st cx pr ef ac].
  destruct env as [nw ans med soc aud]. cbn zeta.
  destruct (credential_step _ _ _) as [tok|e1]; [|world_simpl; by left].
  destruct med as [n|e2]; [|world_simpl; by left].
  cbn [language service media_outcome socket_outcome audio_outcome].
  destruct (wsUrl_of P tok lg sv) as [wsUrl|e]; [|world_simpl; by left].
  destruct soc as [[]|e3]; [|world_simpl; by left].
  destruct aud as [[]|e4]; world_simpl; eauto.
Qed.

Lemma count_fetch_prefix (env : StartEnv) (w : World) :
  length (List.filter is_request (fetch_prefix P env w))
  = match must_fetch P (wsTokenRef w) (now env) with Ok true => 1%nat | _ => 0%nat end.
Proof.
  unfold fetch_prefix. by destruct (must_fetch _ _ _) as [[|]|e].
Qed.

(** The credential slot and the request count after a start. *)
Lemma initialize_token (env : StartEnv) (w : World) :
  wsTokenRef (init env w)
  = match credential_step P env w with
    | Ok wsToken => wsToken
    | Threw _ => wsTokenRef w
    end
  /\ count_fetches (init env w)
     = (count_fetches w
        + match must_fetch P (wsTokenRef w) (now env) with
          | Ok true => 1
          | _ => 0
          end)%nat.
Proof.
  rewrite <- count_fetch_prefix. rewrite initialize_eq. unfold count_fetches.
  set (pre := fetch_prefix P env w).
  destruct w as [cs tr it sv lg wr tk asr acr apr so st cx pr ef ac].
  destruct env as [nw ans med soc aud]. cbn zeta.
  destruct (credential_step _ _ _) as [tok|e1];
    [|world_simpl; rewrite !List.filter_app, !List.length_app; cbn; split; [done|lia]].
  destruct med as [n|e2];
    [|world_simpl; rewrite !List.filter_app, !List.length_app; cbn; split; [done|lia]].
  cbn [language service media_outcome socket_outcome audio_outcome].
  destruct (wsUrl_of P tok lg sv) as [wsUrl|e];
    [|world_simpl; rewrite !List.filter_app, !List.length_app; cbn; split; [done|lia]].
  destruct soc as [[]|e3];
    [|world_simpl; rewrite !List.filter_app, !List.length_app; cbn; split; [done|lia]].
  destruct aud as [[]|e4];
    world_simpl; rewrite !List.filter_app, !List.length_app; cbn; split; (done || lia).
Qed.

(** C3, as amended.  A call of [initializeTranscription] that nothing
    interleaves with is its three stretches in a row.  When its credential
    step fails it ends in [error] having called nothing but what the token
    fetch requested; when its microphone request fails it ends in [error]
    with no socket and no audio object created: the microphone is asked for
    only after the credential is there, the socket made only after the
    microphone is granted.  When every call succeeds it ends in
    [connecting], and the open event of the new socket makes it
    [connected].  The audio pipeline is built before the socket has opened:
    if the socket then fails, the error event sets [error] and changes
    nothing else, so every audio handle is still held, and the close event
    that follows sets [idle] and changes nothing but the socket's
    [readyState]. *)
Theorem start_outcomes (w : World) (env : StartEnv) :
  let w' := init env w in
  let pre := fetch_prefix P env w in
  let k := length (activations w) in
  w' = run P w [StartCall (now env); TokenSettled k (fetch_outcome env);
                MediaSettled k (media_outcome env) (socket_outcome env)
                  (audio_outcome env)]
  /\ (forall e, credential_step P env w = Threw e ->
        connectionState w' = error
        /\ effects w' = effects w ++ pre ++ [alert_of e]
        /\ wsTokenRef w' = wsTokenRef w
        /\ held_unchanged w w')
  /\ (forall wsToken e,
        credential_step P env w = Ok wsToken -> media_outcome env = Threw e ->
        connectionState w' = error
        /\ effects w' = effects w ++ pre ++ [CallGetUserMedia; alert_of e]
        /\ held_unchanged w w')
  /\ (forall wsToken tracks wsUrl,
        credential_step P env w = Ok wsToken ->
        media_outcome env = Ok tracks ->
        wsUrl_of P wsToken (language w) (service w) = Ok wsUrl ->
        socket_outcome env = Ok tt -> audio_outcome env = Ok tt ->
        let ws := length (sockets w) in
        connectionState w' = connecting
        /\ effects w'
           = effects w ++ pre ++ [CallGetUserMedia; NewWebSocket wsUrl; NewAudioContext]
        /\ wsRef w' = Some ws
        /\ sockets w' = sockets w ++ [Build_WebSocket wsUrl CONNECTING []]
        /\ audioStreamRef w' = Some (length (streams w))
        /\ audioContextRef w' = Some (length (contexts w))
        /\ audioProcessorRef w' = Some (length (processors w))
        /\ streams w' = streams w ++ [replicate tracks live]
        /\ contexts w' = contexts w ++ [running]
        /\ processors w'
           = processors w ++ [Build_ScriptProcessorNode ws (length (contexts w)) true 0]
        /\ connectionState (step P w' (WsOpen ws)) = connected
        /\ step P w' (WsError ws) = set_connectionState error w'
        /\ audio_released (step P w' (WsError ws)) = false
        /\ step P (step P w' (WsError ws)) (WsClose ws)
           = set_connectionState idle
               (set_sockets (sockets w ++ [Build_WebSocket wsUrl CLOSED []]) w')).
Proof.
  cbn zeta. split; [reflexivity|]. rewrite initialize_eq. unfold held_unchanged, alert_of.
  set (pre := fetch_prefix P env w).
  destruct w as [cs tr it sv lg wr tk asr acr apr so st cx pr ef ac].
  destruct env as [nw ans med soc aud]. cbn zeta.
  cbn [language service media_outcome socket_outcome audio_outcome sockets streams
       contexts processors effects wsTokenRef wsRef audioStreamRef audioContextRef
       audioProcessorRef].
  split; [|split].
  - intros e ->. world_simpl. rewrite <- !app_assoc. repeat split.
  - intros wsToken e -> ->. world_simpl. rewrite <- !app_assoc. repeat split.
  - intros wsToken tracks wsUrl -> -> -> -> ->. world_simpl. rewrite <- !app_assoc.
    rewrite !alter_snoc, !lookup_snoc. cbn. rewrite !lookup_snoc. cbn.
    rewrite !alter_snoc. repeat split.
Qed.

(** ** The client: events *)

(** The transcript buffers, the credential slot and the effect log after
    an inbound message or an audio frame. *)
Lemma ws_onmessage_frame (parsed : option value) (w : World) :
  let w' := ws_onmessage parsed w in
  connectionState w' = connectionState w /\ wsTokenRef w' = wsTokenRef w
  /\ effects w' = effects w /\ held_unchanged w w'.
Proof.
  destruct w as [cs tr it sv lg wr tk asr acr apr so st cx pr ef ac].
  destruct parsed as [data|]; [|by repeat split].
  cbn zeta. rewrite ws_onmessage_cases.
  destruct (get data "error") as [err|]; [|by repeat split].
  destruct (truthy err); [by repeat split|].
  destruct (truthy (transcript_of data)); [|by repeat split].
  destruct (truthy (opt_get data "is_final")); by repeat split.
Qed.

Lemma onaudioprocess_frame (pid : nat) (inputData : list spec_float) (w : World) :
  let w' := onaudioprocess pid inputData w in
  connectionState w' = connectionState w /\ transcript w' = transcript w
  /\ interimTranscript w' = interimTranscript w /\ wsTokenRef w' = wsTokenRef w
  /\ effects w' = effects w.
Proof.
  destruct w as [cs tr it sv lg wr tk asr acr apr so st cx pr ef ac].
  unfold onaudioprocess, socket_open. cbn.
  destruct (pr !! pid) as [p|]; [|by repeat split].
  destruct (so !! proc_socket p) as [[u [] sent]|]; by repeat split.
Qed.

(** No event but a start, or a stretch of one, touches the cached
    credential or calls the environment. *)
Lemma step_keeps_token (w : World) (e : Event) :
  is_Start e = false ->
  wsTokenRef (step P w e) = wsTokenRef w
  /\ effects (step P w e) = effects w.
Proof.
  intros He.
  destruct e as [env|nw|k ans|k med soc aud| | |sv'|lg'| |id|id parsed|id|id|pid inputData];
    try discriminate; cbn [step].
  - destruct (stop_fields w) as (_ & _ & _ & _ & _ & Htk & Hef & _). by split.
  - by destruct w.
  - by destruct w.
  - by destruct w.
  - destruct (stop_fields w) as (_ & _ & _ & _ & _ & Htk & Hef & _). by split.
  - destruct (sockets w !! id) as [[u [] sent]|]; by destruct w.
  - destruct (ws_onmessage_frame parsed w) as (_ & Htk & Hef & _).
    destruct (sockets w !! id) as [[u [] sent]|]; by split.
  - destruct (sockets w !! id) as [[u [] sent]|]; by destruct w.
  - destruct (sockets w !! id) as [[u [] sent]|]; by destruct w.
  - destruct (onaudioprocess_frame pid inputData w) as (_ & _ & _ & Htk & Hef).
    destruct (processor_runs w pid); by split.
Qed.

Lemma run_keeps_token (events : list Event) : forall w : World,
  forallb (fun e => negb (is_Start e)) events = true ->
  wsTokenRef (run P w events) = wsTokenRef w
  /\ count_fetches (run P w events) = count_fetches w.
Proof.
  induction events as [|e events IH]; intros w Hall; [by split|].
  cbn in Hall. apply andb_true_iff in Hall as [He Hall].
  apply negb_true_iff in He.
  destruct (step_keeps_token w e He) as [Htk Hef].
  destruct (IH (step P w e) Hall) as [IH1 IH2].
  cbn [run fold_left]. fold (run P (step P w e) events).
  split; [by rewrite IH1 | rewrite IH2; unfold count_fetches; by rewrite Hef].
Qed.

(** A value with a string member is an object, so it is truthy. *)
Lemma has_expiry_truthy (v : value) (s : string) :
  opt_get v "expires_at" = VStr s -> truthy v = true.
Proof.
  destruct v as [| |b|x|s'|xs|fields]; try done; unfold opt_get; cbn; discriminate.
Qed.

(** When the cached credential is reused. *)
Lemma must_fetch_false (cached : value) (now_ms : Z) :
  must_fetch P cached now_ms = Ok false
  <-> truthy cached = true
      /\ exists d, expiry P cached = Ok d
                   /\ match d with Some t => now_ms < t | None => True end.
Proof.
  unfold must_fetch. destruct (truthy cached); cbn [negb].
  - destruct (expiry P cached) as [[t|]|e]; cbn [Date_le].
    + split.
      * intros [= H]. apply Z.leb_gt in H. split; [done|]. by exists (Some t).
      * intros [_ (d & [= <-] & H)]. apply Z.leb_gt in H. by rewrite H.
    + split; [|done]. intros _. split; [done|]. by exists None.
    + split; [discriminate|]. by intros [_ (d & H & _)].
  - split; [discriminate|]. by intros [H _].
Qed.

(** C6, as amended.  A start reuses the cached credential exactly when the
    credential is truthy and its expiry is not at or before the clock
    reading of the call: a date strictly after it, or no date at all, for
    the comparison with an invalid date is false.  The requests a start
    makes are those of [fetchWebSocketToken], one for each call.  So after a
    start that fetched a credential whose expiry parses to the time [t], and
    any events that are no part of a start, a second start before [t] makes
    no request (one in all) and keeps the credential; a second start at or
    after [t] makes a second request, and what it returns replaces the
    cached credential. *)
Theorem credential_caching
  (w : World) (env1 env2 : StartEnv) (between : list Event)
  (wsToken : value) (expires_at : string) (t : Z) :
  must_fetch P (wsTokenRef w) (now env1) = Ok true ->
  token_outcome P (fetch_outcome env1) = Ok wsToken ->
  opt_get wsToken "expires_at" = VStr expires_at ->
  Date_parse (engine P) expires_at = Some t ->
  forallb (fun e => negb (is_Start e)) between = true ->
  let w1 := run P (init env1 w) between in
  let w2 := init env2 w1 in
  wsTokenRef w1 = wsToken
  /\ (must_fetch P (wsTokenRef w1) (now env2) = Ok false <-> now env2 < t)
  /\ (now env2 < t ->
        count_fetches w2 = (count_fetches w + 1)%nat /\ wsTokenRef w2 = wsToken)
  /\ (t <= now env2 ->
        count_fetches w2 = (count_fetches w + 2)%nat
        /\ forall wsToken2, token_outcome P (fetch_outcome env2) = Ok wsToken2 ->
             wsTokenRef w2 = wsToken2)
  /\ (forall cached now_ms,
        must_fetch P cached now_ms = Ok false
        <-> truthy cached = true
            /\ exists d, expiry P cached = Ok d
                         /\ match d with Some t' => now_ms < t' | None => True end)
  /\ (forall fetch,
        fetch_prefix P env1 w
        = map HttpRequest
            (fst (Api.fetchWebSocketToken (engine P) (env_API_BASE_URL P)
                    (env_BEARER_TOKEN P) fetch None))
        /\ token_outcome P (fetch_outcome env1)
           = snd (Api.fetchWebSocketToken (engine P) (env_API_BASE_URL P)
                    (env_BEARER_TOKEN P) (fun _ => fetch_outcome env1) None)).
Proof.
  intros Hfetch Htok Hexp Ht Hbetween. cbn zeta.
  destruct (initialize_token env1 w) as [Htk1 Hn1].
  assert (Hcred : credential_step P env1 w = Ok wsToken).
  { unfold credential_step. by rewrite Hfetch. }
  rewrite Hcred in Htk1. rewrite Hfetch in Hn1.
  destruct (run_keeps_token between (init env1 w) Hbetween) as [Htk Hn].
  rewrite Htk1 in Htk. rewrite Hn1 in Hn.
  set (w1 := run P (init env1 w) between) in *.
  pose proof (has_expiry_truthy wsToken expires_at Hexp) as Htruthy.
  assert (Hm : must_fetch P (wsTokenRef w1) (now env2) = Ok (t <=? now env2)).
  { rewrite Htk. unfold must_fetch, expiry. rewrite Htruthy, Hexp. cbn. by rewrite Ht. }
  destruct (initialize_token env2 w1) as [Htk2 Hn2].
  unfold credential_step in Htk2. rewrite Hm in Htk2, Hn2. rewrite Htk in Htk2.
  split; [exact Htk|]. split; [|split; [|split; [|split]]].
  - rewrite Hm. split.
    + intros [= H]. by apply Z.leb_gt in H.
    + intros H. apply Z.leb_gt in H. by rewrite H.
  - intros Hlt. apply Z.leb_gt in Hlt. rewrite Hlt in Htk2, Hn2.
    split; [lia | exact Htk2].
  - intros Hle. apply Z.leb_le in Hle. rewrite Hle in Htk2, Hn2.
    split; [lia|]. intros wsToken2 H2. by rewrite H2 in Htk2.
  - apply must_fetch_false.
  - intros fetch. unfold fetch_prefix. rewrite Hfetch. split; reflexivity.
Qed.

(** C7, as amended.  The close event of a socket that was not closed sets
    its [readyState] to CLOSED and the connection state to idle, and that is
    all: every other part of the state is what it was, so the audio
    handles, the stream, the audio context and the processor are released
    by it no more than they were before.  On a socket that is not there or
    is already closed it is no event. *)
Theorem close_sets_idle_only (w : World) (id : nat) :
  let w' := step P w (WsClose id) in
  (forall sock, sockets w !! id = Some sock -> readyState sock <> CLOSED ->
     w' = set_connectionState idle
            (set_sockets (alter (set_readyState CLOSED) id (sockets w)) w)
     /\ connectionState w' = idle
     /\ sockets w' !! id = Some (Build_WebSocket (ws_url sock) CLOSED (ws_sent sock))
     /\ forall j, j <> id -> sockets w' !! j = sockets w !! j)
  /\ ((sockets w !! id = None
       \/ exists sock, sockets w !! id = Some sock /\ readyState sock = CLOSED) ->
      w' = w)
  /\ audio_released w' = audio_released w
  /\ audioProcessorRef w' = audioProcessorRef w
  /\ audioContextRef w' = audioContextRef w
  /\ audioStreamRef w' = audioStreamRef w
  /\ wsRef w' = wsRef w
  /\ processors w' = processors w
  /\ contexts w' = contexts w
  /\ streams w' = streams w
  /\ transcript w' = transcript w
  /\ interimTranscript w' = interimTranscript w
  /\ service w' = service w
  /\ language w' = language w
  /\ wsTokenRef w' = wsTokenRef w
  /\ effects w' = effects w
  /\ activations w' = activations w.
Proof.
  destruct w as [cs tr it sv lg wr tk asr acr apr so st cx pr ef ac].
  cbn. split; [|split].
  - intros [u r sent] Hso Hr. rewrite Hso. cbn in Hr.
    destruct r; try done; cbn; rewrite list_lookup_alter_eq, Hso; cbn;
      (split; [reflexivity|]); (split; [reflexivity|]); (split; [reflexivity|]);
      intros j Hj; by rewrite list_lookup_alter_ne.
  - intros [Hso | ([u r sent] & Hso & Hr)]; rewrite Hso; [reflexivity|].
    cbn in Hr. by rewrite Hr.
  - destruct (so !! id) as [[u [] sent]|]; by repeat split.
Qed.

(** C9.  [stopTranscription] leaves the finalized sequence and the interim
    segment exactly as they were; [clearTranscript] empties both; and no
    other event empties them: after any event but Clear, the two are empty
    only if they were empty before. *)
Theorem stop_preserves_transcript (w : World) :
  transcript (stopTranscription w) = transcript w
  /\ interimTranscript (stopTranscription w) = interimTranscript w
  /\ buffers_empty (clearTranscript w) = true
  /\ (forall e, is_Clear e = false ->
        buffers_empty (step P w e) = true -> buffers_empty w = true).
Proof.
  destruct (stop_fields w) as (_ & Htr & Hit & _).
  split; [exact Htr|]. split; [exact Hit|]. split; [by destruct w|].
  intros e He. unfold buffers_empty.
  destruct e as [env|nw|k ans|k med soc aud| | |sv'|lg'| |id|id parsed|id|id|pid inputData];
    try discriminate; cbn [step].
  - destruct (initialize_frame env w) as (-> & -> & _). auto.
  - destruct (on_call_frame nw w) as (-> & -> & _). auto.
  - destruct (on_token_frame k ans w) as (-> & -> & _). auto.
  - destruct (on_media_frame k med soc aud w) as (-> & -> & _). auto.
  - rewrite Htr, Hit. auto.
  - by destruct w.
  - by destruct w.
  - rewrite Htr, Hit. auto.
  - destruct (sockets w !! id) as [[u [] sent]|]; by destruct w.
  - destruct (sockets w !! id) as [[u [] sent]|]; auto;
      (destruct parsed as [data|]; [|auto]);
      rewrite ws_onmessage_cases;
      (destruct (get data "error") as [err|]; [|auto]);
      (destruct (truthy err); [auto|]);
      (destruct (truthy (transcript_of data)) eqn:Ht; [|auto]);
      destruct w as [cs tr it sv lg wr tk asr acr apr so st cx pr ef ac];
      (destruct (truthy (opt_get data "is_final")); cbn;
       [by destruct tr | destruct (transcript_of data) as [| | | |[|c s']| |];
                         try discriminate; by destruct tr]).
  - destruct (sockets w !! id) as [[u [] sent]|]; by destruct w.
  - destruct (sockets w !! id) as [[u [] sent]|]; by destruct w.
  - destruct (onaudioprocess_frame pid inputData w) as (_ & Htr' & Hit' & _).
    destruct (processor_runs w pid); [rewrite Htr', Hit'|]; auto.
Qed.

(** The state a start leaves when every call succeeds. *)
Lemma initialize_success
  (w : World) (env : StartEnv) (wsToken : value) (tracks : nat) (wsUrl : string) :
  credential_step P env w = Ok wsToken ->
  media_outcome env = Ok tracks ->
  wsUrl_of P wsToken (language w) (service w) = Ok wsUrl ->
  socket_outcome env = Ok tt -> audio_outcome env = Ok tt ->
  exists log',
    init env w =
    mkWorld connecting (transcript w) (interimTranscript w) (service w) (language w)
      (Some (length (sockets w))) wsToken (Some (length (streams w)))
      (Some (length (contexts w))) (Some (length (processors w)))
      (sockets w ++ [Build_WebSocket wsUrl CONNECTING []])
      (streams w ++ [replicate tracks live])
      (contexts w ++ [running])
      (processors w
         ++ [Build_ScriptProcessorNode (length (sockets w)) (length (contexts w)) true 0])
      log' (activations w ++ [Returned]).
Proof.
  intros Hc Hm Hu Hs Ha. rewrite initialize_eq, Hc, Hm, Hu, Hs, Ha. cbn zeta.
  destruct w as [cs tr it sv lg wr tk asr acr apr so st cx pr ef ac].
  world_simpl. rewrite alter_snoc. eexists; reflexivity.
Qed.

End StartFacts.

(** ** The start, the cache and the close handler at the example session *)

Section Examples.
Import JS Client.

(** C3 at a first start in which every call succeeds. *)
Lemma start_outcomes_witness :
  let w := initial in
  let env := env_all_succeed in
  let w' := initializeTranscription example_platform env w in
  let pre := fetch_prefix example_platform env w in
  let ws := length (sockets w) in
  let wsUrl :=
    "wss://stt.scribemd.ai/v1/listen?access_token=ws-67844d68&language=en-US&service=deepgram"%string in
  connectionState w' = connecting
  /\ effects w'
     = effects w ++ pre ++ [CallGetUserMedia; NewWebSocket wsUrl; NewAudioContext]
  /\ wsRef w' = Some ws
  /\ sockets w' = sockets w ++ [Build_WebSocket wsUrl CONNECTING []]
  /\ audioStreamRef w' = Some (length (streams w))
  /\ audioContextRef w' = Some (length (contexts w))
  /\ audioProcessorRef w' = Some (length (processors w))
  /\ streams w' = streams w ++ [replicate 1 live]
  /\ contexts w' = contexts w ++ [running]
  /\ processors w'
     = processors w ++ [Build_ScriptProcessorNode ws (length (contexts w)) true 0]
  /\ connectionState (step example_platform w' (WsOpen ws)) = connected
  /\ step example_platform w' (WsError ws) = set_connectionState error w'
  /\ audio_released (step example_platform w' (WsError ws)) = false
  /\ step example_platform (step example_platform w' (WsError ws)) (WsClose ws)
     = set_connectionState idle
         (set_sockets (sockets w ++ [Build_WebSocket wsUrl CLOSED []]) w').
Proof.
  apply (proj2 (proj2 (proj2 (start_outcomes example_platform initial env_all_succeed)))
           example_token 1%nat); reflexivity.
Defined.

(** C3 as stated fails when it is the socket that fails to open: at the
    error event the audio pipeline has been built and stays held, so the
    startup is not aborted; and the close event that follows a failed
    connection leaves the state idle, not error. *)
Lemma start_not_aborted_by_socket_failure :
  let w1 := run example_platform initial
              [Start env_all_succeed; WsError 0%nat] in
  let w2 := run example_platform initial
              [Start env_all_succeed; WsError 0%nat; WsClose 0%nat] in
  ~ (connectionState w1 = error /\ audio_released w1 = true)
  /\ ~ connectionState w2 = error.
Proof.
  cbn zeta. split.
  - intros [_ H]. vm_compute in H. discriminate H.
  - intros H. vm_compute in H. discriminate H.
Qed.

(** C6 at the example credential: a start, a stop, and a second start
    before the expiry. *)
Lemma credential_caching_witness :
  let w1 := run example_platform
              (initializeTranscription example_platform env_all_succeed initial)
              [Stop] in
  let w2 := initializeTranscription example_platform env_all_succeed w1 in
  wsTokenRef w1 = example_token
  /\ (must_fetch example_platform (wsTokenRef w1) (now env_all_succeed) = Ok false
      <-> now env_all_succeed < 1762829443291)
  /\ (now env_all_succeed < 1762829443291 ->
        count_fetches w2 = (count_fetches initial + 1)%nat
        /\ wsTokenRef w2 = example_token).
Proof.
  pose proof (credential_caching example_platform initial env_all_succeed env_all_succeed
                [Stop] example_token "2025-11-11T02:50:43.291Z"%string 1762829443291
                eq_refl eq_refl eq_refl eq_refl eq_refl) as (H1 & H2 & H3 & _).
  exact (conj H1 (conj H2 H3)).
Defined.

(** C6 as stated fails: a cached credential whose [expires_at] is no date
    is reused, though its expiry is not in the future. *)
Lemma undated_credential_is_reused :
  ~ (must_fetch example_platform undated_token 1762829000000 = Ok false
     <-> expires_in_future example_platform undated_token 1762829000000 = true).
Proof. intros [H _]. discriminate (H eq_refl). Qed.

(** C7 as stated fails: after a start, the open event and then the close
    event, the state is idle with every audio handle still held. *)
Lemma close_keeps_audio_resources :
  let w := run example_platform initial
             [Start env_all_succeed; WsOpen 0%nat; WsClose 0%nat] in
  ~ (connectionState w = idle /\ audio_released w = true).
Proof. cbn zeta. intros [_ H]. vm_compute in H. discriminate H. Qed.

End Examples.

(* ===================================================================== *)
(** * Further properties of the code                                      *)
(* ===================================================================== *)

(** ** The audio path *)

Section PcmMore.
Import Pcm.

Lemma small_quotient_bound (m : positive) (e : Z) :
  Zpos (digits2_pos m) + e <= 0 ->
  0 <= Zpos m * 32767 / 2 ^ (- e) < 32767.
Proof.
  intros Hsmall. pose proof (digits2_pos_bounds m) as [_ Bhi].
  assert (Hd1 : 0 < Zpos (digits2_pos m)) by lia.
  assert (Hme : Zpos m < 2 ^ (- e)).
  { assert (2 ^ Zpos (digits2_pos m) <= 2 ^ (- e)) by (apply Z.pow_le_mono_r; lia). lia. }
  assert (Hpe : 0 < 2 ^ (- e)) by (apply Z.pow_pos_nonneg; lia).
  split; [apply Z.div_pos; lia|]. apply Z.div_lt_upper_bound; nia.
Qed.

Lemma sample_range (x : spec_float) :
  valid_binary f32_prec f32_emax x = true ->
  -32767 <= convert_sample x <= 32767.
Proof.
  intros Hv. destruct x as [s|s| |s m e].
  - replace (convert_sample (S754_zero s)) with 0 by (by destruct s). lia.
  - replace (convert_sample (S754_infinity s)) with (if s then -32767 else 32767)
      by (by destruct s).
    destruct s; lia.
  - replace (convert_sample S754_nan) with 0 by reflexivity. lia.
  - destruct (Z_le_gt_dec (Zpos (digits2_pos m) + e) 0) as [Hs|Hl].
    + rewrite convert_sample_finite_small by assumption.
      pose proof (small_quotient_bound m e Hs). destruct s; lia.
    + rewrite convert_sample_finite_large by (assumption || lia). destruct s; lia.
Qed.

(** X1.  Every element a [Float32Array] can hold, NaN and the infinities
    included, is stored as an Int16 between -32767 and 32767: the value
    -32768 is never produced. *)
Theorem pcm_sample_range (x : spec_float) :
  valid_binary f32_prec f32_emax x = true ->
  -32767 <= convert_sample x <= 32767.
Proof. exact (sample_range x). Qed.

Lemma pcm_sample_range_witness : -32767 <= convert_sample f32_minus_one <= 32767.
Proof. apply (pcm_sample_range f32_minus_one). reflexivity. Defined.

(** X2.  The conversion is odd: the negated sample gives the negated Int16. *)
Theorem pcm_sample_odd (x : spec_float) :
  valid_binary f32_prec f32_emax x = true ->
  convert_sample (SFopp x) = - convert_sample x.
Proof.
  intros Hv. destruct x as [s|s| |s m e]; try (by destruct s); [reflexivity|].
  assert (Hv' : valid_binary f32_prec f32_emax (S754_finite (negb s) m e) = true)
    by exact Hv.
  cbn [SFopp].
  destruct (Z_le_gt_dec (Zpos (digits2_pos m) + e) 0) as [Hs|Hl].
  - rewrite !convert_sample_finite_small by assumption. destruct s; cbn [negb]; lia.
  - rewrite !convert_sample_finite_large by (assumption || lia).
    destruct s; reflexivity.
Qed.

Lemma pcm_sample_odd_witness :
  convert_sample (SFopp f32_one) = - convert_sample f32_one.
Proof. apply (pcm_sample_odd f32_one). reflexivity. Defined.

Lemma decode_buffer (pcmData : list Z) :
  Forall (fun v => - 2 ^ 15 <= v < 2 ^ 15) pcmData ->
  decode (buffer pcmData) = pcmData.
Proof.
  induction 1 as [|v l Hv _ IH]; [reflexivity|].
  cbn [buffer flat_map Int16_bytes app decode]. fold (buffer l). rewrite IH.
  f_equal. change (2 ^ 15) with 32768 in *. change (2 ^ 16) with 65536 in *.
  destruct (Z.leb_spec 32768 (v mod 65536 mod 256 + 256 * (v mod 65536 / 256)));
    Z.div_mod_to_equations; lia.
Qed.

(** X3.  Round trip: the bytes sent for a frame, read back as little-endian
    signed 16-bit samples, are the converted samples, one per input sample
    and in the same order; and each is a byte. *)
Theorem pcm_frame_roundtrip (inputData : list spec_float) :
  Forall (fun x => valid_binary f32_prec f32_emax x = true) inputData ->
  decode (buffer (to_pcm inputData)) = map convert_sample inputData
  /\ length (to_pcm inputData) = length inputData
  /\ Forall (fun b => 0 <= b < 256) (buffer (to_pcm inputData)).
Proof.
  intros Hvalid. rewrite to_pcm_map. split; [|split].
  - apply decode_buffer. rewrite Forall_fmap. eapply Forall_impl; [exact Hvalid|].
    intros x Hx. cbn. pose proof (sample_range x Hx). change (2 ^ 15) with 32768. lia.
  - apply length_map.
  - clear Hvalid. induction inputData as [|x l IH]; [constructor|].
    cbn [map buffer flat_map Int16_bytes app]. fold (buffer (map convert_sample l)).
    change (2 ^ 16) with 65536.
    repeat constructor; try (Z.div_mod_to_equations; lia). exact IH.
Qed.

End PcmMore.

Lemma pcm_frame_roundtrip_witness :
  decode (buffer (to_pcm [f32_one; S754_nan; f32_minus_one]))
  = map convert_sample [f32_one; S754_nan; f32_minus_one]
  /\ length (to_pcm [f32_one; S754_nan; f32_minus_one])
     = length [f32_one; S754_nan; f32_minus_one]
  /\ Forall (fun b => 0 <= b < 256) (buffer (to_pcm [f32_one; S754_nan; f32_minus_one])).
Proof.
  apply (pcm_frame_roundtrip [f32_one; S754_nan; f32_minus_one]).
  repeat constructor.
Defined.

(** ** The audio callback and the sockets *)

Section AudioMore.
Import JS Client.
Variable P : Platform.

(** X4.  A frame that arrives while the socket of the processor is not open is
    dropped: nothing is sent, nothing is counted, the state is unchanged.
    A frame that arrives while it is open is converted and sent whole, as
    one binary message appended to what that socket was sent, the chunk
    counter goes up by one, and nothing else changes: no other socket, no
    other processor, and no other part of the state. *)
Theorem onaudioprocess_sends_or_drops
  (w : World) (pid : nat) (p : ScriptProcessorNode) (inputData : list spec_float) :
  processors w !! pid = Some p ->
  let w' := onaudioprocess pid inputData w in
  (socket_open w (proc_socket p) = false -> w' = w)
  /\ (forall sock, sockets w !! proc_socket p = Some sock -> readyState sock = OPEN ->
        sockets w' !! proc_socket p
        = Some (Build_WebSocket (ws_url sock) OPEN
                  (ws_sent sock ++ [Pcm.buffer (Pcm.to_pcm inputData)]))
        /\ processors w' !! pid
           = Some (Build_ScriptProcessorNode (proc_socket p) (proc_context p)
                     (proc_connected p) (S (audioChunkCount p)))
        /\ (forall id, id <> proc_socket p -> sockets w' !! id = sockets w !! id)
        /\ (forall q, q <> pid -> processors w' !! q = processors w !! q)
        /\ length (sockets w') = length (sockets w)
        /\ length (processors w') = length (processors w)
        /\ connectionState w' = connectionState w
        /\ transcript w' = transcript w
        /\ interimTranscript w' = interimTranscript w
        /\ service w' = service w
        /\ language w' = language w
        /\ wsRef w' = wsRef w
        /\ wsTokenRef w' = wsTokenRef w
        /\ audioStreamRef w' = audioStreamRef w
        /\ audioContextRef w' = audioContextRef w
        /\ audioProcessorRef w' = audioProcessorRef w
        /\ streams w' = streams w
        /\ contexts w' = contexts w
        /\ effects w' = effects w
        /\ activations w' = activations w).
Proof.
  destruct w as [cs tr it sv lg wr tk asr acr apr so st cx pr ef ac].
  cbn. intros Hp. unfold onaudioprocess, socket_open. cbn. rewrite Hp.
  split.
  - by intros ->.
  - intros [u r sent] Hso Hr. cbn in Hr. subst r. rewrite Hso. cbn.
    rewrite !list_lookup_alter_eq, Hso, Hp, !length_alter. cbn.
    repeat split; intros; by apply list_lookup_alter_ne.
Qed.

(** X5.  Audio is never sent on a socket that is not open: whatever the event,
    a socket whose [readyState] is not OPEN before it has been sent exactly
    the same frames after it. *)
Theorem no_frame_on_closed_socket (w : World) (e : Event) (id : nat) (sock : WebSocket) :
  sockets w !! id = Some sock -> readyState sock <> OPEN ->
  exists sock', sockets (step P w e) !! id = Some sock'
                /\ ws_sent sock' = ws_sent sock.
Proof.
  intros Hso Hr.
  assert (Halter : forall (f : WebSocket -> WebSocket) j,
            (forall x, ws_sent (f x) = ws_sent x) ->
            exists sock', alter f j (sockets w) !! id = Some sock'
                          /\ ws_sent sock' = ws_sent sock).
  { intros f j Hf. destruct (decide (j = id)) as [->|Hne].
    - rewrite list_lookup_alter_eq, Hso. cbn. eauto.
    - rewrite list_lookup_alter_ne by done. eauto. }
  destruct e as [env|nw|k ans|k med soc aud| | |sv'|lg'| |id'|id' parsed|id'|id'|pid inputData];
    cbn [step].
  - destruct (sockets_after_start P env w) as [-> | [x ->]]; [eauto|].
    exists sock. split; [|reflexivity]. by apply lookup_app_l_Some.
  - destruct (on_call_frame P nw w) as (_ & _ & _ & _ & _ & _ & _ & -> & _). eauto.
  - destruct (on_token_frame P k ans w) as (_ & _ & _ & _ & _ & _ & -> & _). eauto.
  - destruct (on_media_frame P k med soc aud w) as (_ & _ & _ & _ & [-> | [x ->]]); [eauto|].
    exists sock. split; [|reflexivity]. by apply lookup_app_l_Some.
  - destruct (stop_fields w)
      as (_ & _ & _ & _ & _ & _ & _ & _ & _ & _ & _ & _ & _ & _ & _ & ->).
    destruct (wsRef w) as [j|]; [|eauto].
    destruct (socket_open w j); [by apply Halter | eauto].
  - destruct w; eauto.
  - destruct w; eauto.
  - destruct w; eauto.
  - destruct (stop_fields w)
      as (_ & _ & _ & _ & _ & _ & _ & _ & _ & _ & _ & _ & _ & _ & _ & ->).
    destruct (wsRef w) as [j|]; [|eauto].
    destruct (socket_open w j); [by apply Halter | eauto].
  - destruct (sockets w !! id') as [[u [] sent]|] eqn:Hid'; eauto.
    destruct w as [cs tr it sv lg wr tk asr acr apr so st cx pr ef ac]. cbn in *.
    by apply Halter.
  - destruct (ws_onmessage_frame parsed w) as (_ & _ & _ & _ & _ & _ & _ & Hs & _).
    destruct (sockets w !! id') as [[u [] sent]|]; rewrite ?Hs; eauto.
  - destruct (sockets w !! id') as [[u [] sent]|]; destruct w; eauto.
  - destruct (sockets w !! id') as [[u [] sent]|] eqn:Hid'; eauto;
      destruct w as [cs tr it sv lg wr tk asr acr apr so st cx pr ef ac]; cbn in *;
      by apply Halter.
  - destruct (processor_runs w pid); [|eauto].
    unfold onaudioprocess. destruct (processors w !! pid) as [p|]; [|eauto].
    destruct (socket_open w (proc_socket p)) eqn:Hopen; [|eauto].
    destruct w as [cs tr it sv lg wr tk asr acr apr so st cx pr ef ac]. cbn in *.
    destruct (decide (proc_socket p = id)) as [Heq|Hne].
    + unfold socket_open in Hopen. cbn in Hopen. rewrite Heq, Hso in Hopen.
      destruct sock as [u [] sent]; cbn in *; done.
    + rewrite list_lookup_alter_ne by done. eauto.
Qed.

(** X6.  The finalized sequence is append-only: after any event but Clear, what
    was finalized before is a prefix of what is finalized after. *)
Theorem transcript_append_only (w : World) (e : Event) :
  is_Clear e = false ->
  transcript w `prefix_of` transcript (step P w e).
Proof.
  intros He.
  destruct e as [env|nw|k ans|k med soc aud| | |sv'|lg'| |id|id parsed|id|id|pid inputData];
    try discriminate; cbn [step].
  - by destruct (initialize_frame P env w) as (-> & _).
  - by destruct (on_call_frame P nw w) as (-> & _).
  - by destruct (on_token_frame P k ans w) as (-> & _).
  - by destruct (on_media_frame P k med soc aud w) as (-> & _).
  - by destruct (stop_fields w) as (_ & -> & _).
  - by destruct w.
  - by destruct w.
  - by destruct (stop_fields w) as (_ & -> & _).
  - destruct (sockets w !! id) as [[u [] sent]|]; by destruct w.
  - destruct (sockets w !! id) as [[u [] sent]|]; try done;
      (destruct parsed as [data|]; [|done]);
      rewrite ws_onmessage_cases;
      (destruct (get data "error") as [err|]; [|done]);
      (destruct (truthy err); [done|]);
      (destruct (truthy (transcript_of data)); [|done]);
      destruct w as [cs tr it sv lg wr tk asr acr apr so st cx pr ef ac];
      (destruct (truthy (opt_get data "is_final")); cbn; [|done]);
      by apply prefix_app_r.
  - destruct (sockets w !! id) as [[u [] sent]|]; by destruct w.
  - destruct (sockets w !! id) as [[u [] sent]|]; by destruct w.
  - destruct (onaudioprocess_frame pid inputData w) as (_ & Htr & _).
    destruct (processor_runs w pid); [by rewrite Htr | done].
Qed.

End AudioMore.

(** ** The token fetch: requests and thrown errors *)

Section ApiMore.
Import JS Api.
Local Open Scope string_scope.

Variable E : Engine.
Variables (env_API_BASE_URL env_BEARER_TOKEN : option string).
Variable fetch : Request -> result Response.

(** X7.  Every call makes exactly one request, whatever comes of it: a POST to
    the grant path under the configured base URL (the default host when the
    variable is unset or empty), with the JSON body [{type: 'websocket'}] and
    the bearer token in the Authorization header: the override when it is a
    non-empty string, else the configured token, else the empty string. *)
Theorem fetch_sends_one_request (authToken : option string) :
  exists request,
    fst (fetchWebSocketToken E env_API_BASE_URL env_BEARER_TOKEN fetch authToken) = [request]
    /\ req_method request = "POST"
    /\ req_url request
       = (match env_API_BASE_URL with
          | Some (String c base) => String c base
          | _ => "https://api.scribemd.com"
          end) ++ "/api/v1/auth/grant"
    /\ req_body request
       = String "{" (String dquote ("type" ++ String dquote (":" ++ String dquote
           ("websocket" ++ String dquote "}"))))
    /\ req_headers request
       = [("Content-Type", "application/json");
          ("Authorization",
           "Bearer " ++
           match authToken, env_BEARER_TOKEN with
           | Some (String c t), _ => String c t
           | _, Some (String c t) => String c t
           | _, _ => ""
           end)].
Proof.
  eexists. split; [reflexivity|]. split; [reflexivity|]. split; [|split].
  - unfold grant_request, grant_url, API_BASE_URL, or_else. cbn [req_url].
    by destruct env_API_BASE_URL as [[|c base]|].
  - reflexivity.
  - unfold grant_request, BEARER_TOKEN, or_else. cbn.
    by destruct authToken as [[|c t]|], env_BEARER_TOKEN as [[|c' t']|].
Qed.

(** X8.  Every error the function throws is one of three kinds, told apart by its
    message: a network error (when [fetch] rejected with a TypeError that
    mentions fetch), the failed-response error, or the catch-all. *)
Theorem fetch_error_kinds (authToken : option string) (e : JsError) :
  snd (fetchWebSocketToken E env_API_BASE_URL env_BEARER_TOKEN fetch authToken) = Threw e ->
  String.prefix "Network error: Could not reach " (message e) = true
  \/ includes "Failed to fetch WebSocket token" (message e) = true
  \/ String.prefix "Unexpected error fetching WebSocket token: " (message e) = true.
Proof.
  unfold fetchWebSocketToken, try_body. cbn [snd].
  destruct (after_fetch E (fetch _)) as [data|err]; [discriminate|].
  intros [= <-]. unfold on_catch.
  destruct (String.eqb (name err) "TypeError" && includes "fetch" (message err)).
  - left. cbn [message]. apply prefix_iff. eexists. reflexivity.
  - destruct (includes "Failed to fetch WebSocket token" (message err)) eqn:Hinc.
    + right. left. exact Hinc.
    + right. right. cbn [message]. apply prefix_iff. eexists. reflexivity.
Qed.

(** X9.  What the message of a failed response carries for the body, at the
    edges: with no [content-type] header the body is read as text; a JSON
    body that is a string is embedded as it is, unquoted; and when the
    header says JSON but the body does not parse, the fixed text stands in
    for it (the raw text is not tried). *)
Theorem error_body_edges (r : Response) :
  (forall raw, content_type r = None -> text r = Some raw -> errorText E r = raw)
  /\ (forall ct s, content_type r = Some ct -> includes "application/json" ct = true ->
        json r = Ok (VStr s) -> errorText E r = s)
  /\ (forall ct err, content_type r = Some ct -> includes "application/json" ct = true ->
        json r = Threw err -> errorText E r = "Could not parse error response").
Proof.
  unfold errorText, errorData. split; [|split].
  - by intros raw -> ->.
  - intros ct s -> Hct ->. rewrite Hct. by destruct ct.
  - intros ct err -> Hct ->. rewrite Hct. by destruct ct.
Qed.

End ApiMore.

Lemma fetch_error_kinds_witness :
  let e := JS.mkError "Error" (Api.failure_message Client.example_engine Api.response_401) in
  String.prefix "Network error: Could not reach " (JS.message e) = true
  \/ JS.includes "Failed to fetch WebSocket token" (JS.message e) = true
  \/ String.prefix "Unexpected error fetching WebSocket token: " (JS.message e) = true.
Proof.
  cbn zeta.
  apply (fetch_error_kinds Client.example_engine None None
           (fun _ => JS.Ok Api.response_401) None).
  reflexivity.
Defined.

(** ** Sessions: how the operations compose *)

Section SessionMore.
Import JS Client.
Variable P : Platform.

Local Abbreviation init := (initializeTranscription P).

(** X10.  Start, open, stop: a session that connected and is then stopped holds
    nothing any more.  The socket it opened is closing and no longer
    referenced, its audio context is closed, its processor disconnected,
    every track of its microphone stream ended, the state idle; the cached
    credential is kept. *)
Theorem session_stopped_releases_all
  (w : World) (env : StartEnv) (wsToken : value) (tracks : nat) (wsUrl : string) :
  credential_step P env w = Ok wsToken ->
  media_outcome env = Ok tracks ->
  wsUrl_of P wsToken (language w) (service w) = Ok wsUrl ->
  socket_outcome env = Ok tt -> audio_outcome env = Ok tt ->
  let ws := length (sockets w) in
  let w' := run P w [Start env; WsOpen ws; Stop] in
  connectionState w' = idle
  /\ audio_released w' = true
  /\ wsRef w' = None
  /\ readyState <$> sockets w' !! ws = Some CLOSING
  /\ contexts w' !! length (contexts w) = Some closed
  /\ proc_connected <$> processors w' !! length (processors w) = Some false
  /\ streams w' !! length (streams w) = Some (replicate tracks ended)
  /\ wsTokenRef w' = wsToken.
Proof.
  intros Hc Hm Hu Hs Ha. cbn zeta. cbn [run fold_left step].
  destruct (initialize_success P w env wsToken tracks wsUrl Hc Hm Hu Hs Ha) as [log' ->].
  destruct w as [cs tr it sv lg wr tk asr acr apr so st cx pr ef ac].
  cbn. rewrite lookup_snoc. cbn.
  unfold stopTranscription, socket_open. cbn.
  rewrite !alter_snoc, lookup_snoc. cbn.
  rewrite ?alter_snoc, ?lookup_snoc. cbn.
  repeat split. unfold stop_tracks. by rewrite fmap_replicate.
Qed.

(** X11.  Stop while the socket is still connecting, then the socket opens: the
    stale open handler sets the state to connected although the audio
    pipeline has been torn down; the socket is open and still referenced. *)
Theorem stale_open_after_stop
  (w : World) (env : StartEnv) (wsToken : value) (tracks : nat) (wsUrl : string) :
  credential_step P env w = Ok wsToken ->
  media_outcome env = Ok tracks ->
  wsUrl_of P wsToken (language w) (service w) = Ok wsUrl ->
  socket_outcome env = Ok tt -> audio_outcome env = Ok tt ->
  let ws := length (sockets w) in
  let w' := run P w [Start env; Stop; WsOpen ws] in
  connectionState w' = connected
  /\ audio_released w' = true
  /\ wsRef w' = Some ws
  /\ readyState <$> sockets w' !! ws = Some OPEN.
Proof.
  intros Hc Hm Hu Hs Ha. cbn zeta. cbn [run fold_left step].
  destruct (initialize_success P w env wsToken tracks wsUrl Hc Hm Hu Hs Ha) as [log' ->].
  destruct w as [cs tr it sv lg wr tk asr acr apr so st cx pr ef ac].
  unfold stopTranscription, socket_open. cbn.
  rewrite !lookup_snoc. cbn. rewrite !lookup_snoc. cbn.
  rewrite !alter_snoc, lookup_snoc. by cbn.
Qed.

(** X12.  A cached credential whose expiry does not parse as a date is never
    refreshed: the comparison with an invalid date is false, so a start
    makes no request and keeps it, whatever the clock says. *)
Theorem unparsable_expiry_is_reused
  (w : World) (env : StartEnv) (wsToken : value) (expires_at : string) :
  wsTokenRef w = wsToken ->
  opt_get wsToken "expires_at" = VStr expires_at ->
  Date_parse (engine P) expires_at = None ->
  count_fetches (init env w) = count_fetches w
  /\ wsTokenRef (init env w) = wsToken.
Proof.
  intros Htk Hexp Hdate. destruct (initialize_token P env w) as [H1 H2].
  unfold credential_step in H1.
  assert (Hm : must_fetch P (wsTokenRef w) (now env) = Ok false).
  { rewrite Htk. unfold must_fetch, expiry.
    rewrite (has_expiry_truthy wsToken expires_at Hexp), Hexp. cbn. by rewrite Hdate. }
  rewrite Hm in H1, H2. rewrite Htk in H1. split; [lia | exact H1].
Qed.

(** X13.  A start that fails part-way keeps what it had acquired: a credential
    fetched before the microphone was refused stays cached; and when the
    WebSocket constructor throws after the microphone was granted (or the
    URL cannot be built for it), the new stream stays referenced with its
    tracks live, while no socket and no audio object were created. *)
Theorem failed_start_keeps_acquired
  (w : World) (env : StartEnv) (wsToken : value) :
  credential_step P env w = Ok wsToken ->
  (forall e, media_outcome env = Threw e ->
     connectionState (init env w) = error /\ wsTokenRef (init env w) = wsToken)
  /\ (forall tracks e,
        media_outcome env = Ok tracks ->
        socket_outcome env = Threw e ->
        connectionState (init env w) = error
        /\ audioStreamRef (init env w) = Some (length (streams w))
        /\ streams (init env w) = streams w ++ [replicate tracks live]
        /\ wsRef (init env w) = wsRef w
        /\ sockets (init env w) = sockets w
        /\ contexts (init env w) = contexts w
        /\ processors (init env w) = processors w).
Proof.
  intros Hc. split.
  - intros e Hm. rewrite initialize_eq, Hc, Hm. cbn zeta.
    by destruct w as [cs tr it sv lg wr tk asr acr apr so st cx pr ef ac].
  - intros tracks e Hm Hs. rewrite initialize_eq, Hc, Hm, Hs. cbn zeta.
    destruct (wsUrl_of P wsToken (language w) (service w)) as [wsUrl|e'];
      by destruct w as [cs tr it sv lg wr tk asr acr apr so st cx pr ef ac].
Qed.


(** The stores keep their sizes over a stop. *)
Lemma stop_lengths (w : World) :
  length (sockets (stopTranscription w)) = length (sockets w)
  /\ length (streams (stopTranscription w)) = length (streams w)
  /\ length (contexts (stopTranscription w)) = length (contexts w)
  /\ length (processors (stopTranscription w)) = length (processors w).
Proof.
  destruct (stop_fields w)
    as (_ & _ & _ & _ & _ & _ & _ & _ & _ & _ & _ & _ & -> & -> & -> & ->).
  destruct (audioProcessorRef w), (audioContextRef w), (audioStreamRef w),
    (wsRef w) as [id|]; try destruct (socket_open w id);
    by rewrite ?length_alter.
Qed.

Lemma lookup_snoc_at {A : Type} (l : list A) (x : A) (n : nat) :
  length l = n -> (l ++ [x]) !! n = Some x.
Proof. intros <-. apply lookup_snoc. Qed.

(** X16.  A stop between the click and the answer of the token fetch does not
    cancel the call.  After the stop the state is idle and no audio handle
    is held; the page offers the stop while connecting, and the two settings
    once idle.  When the fetch and then the microphone request settle, the
    call goes on to cache the credential and to acquire the stream, the
    socket, the audio context and the processor, and the URL of the socket
    carries the language and the service of the click, not the ones set
    since.  The state stays idle with all of them held, and the open event
    of the socket then makes it connected. *)
Theorem stop_between_awaits
  (w : World) (now_ms : Z) (answer : result Api.Response)
  (wsToken : value) (tracks : nat) (wsUrl : string) (l : string) (s : Service) :
  must_fetch P (wsTokenRef w) now_ms = Ok true ->
  token_outcome P answer = Ok wsToken ->
  wsUrl_of P wsToken (language w) (service w) = Ok wsUrl ->
  let k := length (activations w) in
  let ws := length (sockets w) in
  let stopped := run P w [StartCall now_ms; Stop] in
  let w' := run P w [StartCall now_ms; Stop; SetLanguage l; SetService s;
                     TokenSettled k answer;
                     MediaSettled k (Ok tracks) (Ok tt) (Ok tt)] in
  ui_enabled (run P w [StartCall now_ms]) Stop = true
  /\ connectionState stopped = idle
  /\ audio_released stopped = true
  /\ ui_enabled stopped (SetLanguage l) = true
  /\ ui_enabled (run P w [StartCall now_ms; Stop; SetLanguage l]) (SetService s) = true
  /\ connectionState w' = idle
  /\ language w' = l
  /\ service w' = s
  /\ wsTokenRef w' = wsToken
  /\ wsRef w' = Some ws
  /\ sockets w' !! ws = Some (Build_WebSocket wsUrl CONNECTING [])
  /\ audioStreamRef w' = Some (length (streams w))
  /\ streams w' !! length (streams w) = Some (replicate tracks live)
  /\ audioContextRef w' = Some (length (contexts w))
  /\ contexts w' !! length (contexts w) = Some running
  /\ audioProcessorRef w' = Some (length (processors w))
  /\ processors w' !! length (processors w)
     = Some (Build_ScriptProcessorNode ws (length (contexts w)) true 0)
  /\ connectionState (step P w' (WsOpen ws)) = connected.
Proof.
  intros Hfetch Htok Hurl. cbn zeta. cbn [run fold_left step].
  rewrite on_call_eq, Hfetch. cbn zeta.
  set (w1 := push _ _).
  assert (Hw1 : connectionState w1 = connecting
                /\ activations w1 = activations w ++ [AwaitingToken (language w) (service w)]
                /\ sockets w1 = sockets w /\ streams w1 = streams w
                /\ contexts w1 = contexts w /\ processors w1 = processors w).
  { subst w1. by destruct w. }
  destruct Hw1 as (Hcs1 & Hac & Hso & Hst & Hcx & Hpr).
  destruct (stop_lengths w1) as (Lso & Lst & Lcx & Lpr).
  rewrite Hso in Lso. rewrite Hst in Lst. rewrite Hcx in Lcx. rewrite Hpr in Lpr.
  destruct (stop_fields w1)
    as (Hcs & _ & _ & _ & _ & _ & _ & Hac' & Hapr & Hacr & Hasr & _).
  rewrite Hac in Hac'. clear Hac Hso Hst Hcx Hpr. clearbody w1.
  split; [unfold ui_enabled; by rewrite Hcs1|].
  split; [exact Hcs|]. split; [unfold audio_released; by rewrite Hapr, Hacr, Hasr|].
  split; [unfold ui_enabled; by rewrite Hcs|].
  destruct (stopTranscription w1)
    as [cs2 tr2 it2 sv2 lg2 wr2 tk2 asr2 acr2 apr2 so2 st2 cx2 pr2 ef2 ac2].
  cbn in Hcs, Hac', Lso, Lst, Lcx, Lpr. subst cs2 ac2.
  cbn [set_language set_service]. split; [reflexivity|].
  rewrite on_token_eq. cbn [activations]. rewrite lookup_snoc, Htok.
  rewrite on_media_eq. world_simpl. rewrite insert_snoc, lookup_snoc, Hurl.
  world_simpl. rewrite <- Lso, <- Lst, <- Lcx, <- Lpr.
  rewrite !alter_snoc, !lookup_snoc. cbn. repeat split.
Qed.

(** X17.  What the close handler leaves held is lost by a restart.  After a
    session whose socket closed the state is idle and the page offers Start
    again; the new call overwrites the three audio handles with those of
    its own objects, so a stop after it releases the second session only:
    the audio context of the first is still running, its processor
    connected and the tracks of its stream live, and no handle names
    them. *)
Theorem restart_leaks_first_session
  (w : World) (env1 env2 : StartEnv) (wsToken1 wsToken2 : value)
  (tracks1 tracks2 : nat) (wsUrl1 wsUrl2 : string) :
  credential_step P env1 w = Ok wsToken1 ->
  media_outcome env1 = Ok tracks1 ->
  wsUrl_of P wsToken1 (language w) (service w) = Ok wsUrl1 ->
  socket_outcome env1 = Ok tt -> audio_outcome env1 = Ok tt ->
  let ws := length (sockets w) in
  let first := run P w [Start env1; WsOpen ws; WsClose ws] in
  credential_step P env2 first = Ok wsToken2 ->
  media_outcome env2 = Ok tracks2 ->
  wsUrl_of P wsToken2 (language w) (service w) = Ok wsUrl2 ->
  socket_outcome env2 = Ok tt -> audio_outcome env2 = Ok tt ->
  let w' := run P first [Start env2; Stop] in
  connectionState first = idle
  /\ ui_enabled first (Start env2) = true
  /\ audioContextRef first = Some (length (contexts w))
  /\ connectionState w' = idle
  /\ audio_released w' = true
  /\ contexts w' !! length (contexts w) = Some running
  /\ contexts w' !! S (length (contexts w)) = Some closed
  /\ processors w' !! length (processors w)
     = Some (Build_ScriptProcessorNode ws (length (contexts w)) true 0)
  /\ streams w' !! length (streams w) = Some (replicate tracks1 live)
  /\ streams w' !! S (length (streams w)) = Some (replicate tracks2 ended).
Proof.
  intros Hc1 Hm1 Hu1 Hs1 Ha1. cbn zeta. cbn [run fold_left step].
  destruct (initialize_success P w env1 wsToken1 tracks1 wsUrl1 Hc1 Hm1 Hu1 Hs1 Ha1)
    as [log1 ->].
  destruct w as [cs tr it sv lg wr tk asr acr apr so st cx pr ef ac].
  cbn [sockets streams contexts processors language service transcript
       interimTranscript activations].
  rewrite lookup_snoc. cbn [ws_onopen set_sockets set_connectionState sockets].
  rewrite alter_snoc, lookup_snoc.
  cbn [set_readyState ws_url ws_sent ws_onclose set_sockets set_connectionState sockets].
  rewrite alter_snoc. cbn [set_readyState ws_url ws_sent].
  set (first := mkWorld idle _ _ _ _ _ _ _ _ _ _ _ _ _ _ _).
  intros Hc2 Hm2 Hu2 Hs2 Ha2.
  destruct (initialize_success P first env2 wsToken2 tracks2 wsUrl2 Hc2 Hm2 Hu2 Hs2 Ha2)
    as [log2 ->].
  subst first. cbn [sockets streams contexts processors language service transcript
                    interimTranscript activations connectionState audioContextRef].
  split; [reflexivity|]. split; [reflexivity|]. split; [reflexivity|].
  unfold stopTranscription, socket_open, audio_released. cbn.
  rewrite !alter_snoc, ?lookup_snoc. cbn.
  rewrite !length_app. cbn.
  replace (length cx + 1)%nat with (S (length cx)) by lia.
  replace (length st + 1)%nat with (S (length st)) by lia.
  repeat split.
  - rewrite lookup_app_l by (rewrite length_app; cbn; lia). apply lookup_snoc.
  - apply lookup_snoc_at. rewrite length_app. cbn. lia.
  - rewrite lookup_app_l by (rewrite length_app; cbn; lia). apply lookup_snoc.
  - rewrite lookup_app_l by (rewrite length_app; cbn; lia). apply lookup_snoc.
  - unfold stop_tracks. rewrite fmap_replicate. apply lookup_snoc_at.
    rewrite length_app. cbn. lia.
Qed.

End SessionMore.

(** ** The socket URL *)

Section UrlMore.
Import JS Client.
Local Open Scope string_scope.
Variable P : Platform.

Lemma upper_hex_unreserved (k : nat) : (k < 16)%nat -> unreserved (upper_hex k) = true.
Proof. intros Hk. do 16 (destruct k as [|k]; [reflexivity|]). lia. Qed.

Lemma encodeURIComponent_safe (s : string) : url_safe (encodeURIComponent s).
Proof.
  unfold url_safe. induction s as [|c s IH]; [constructor|].
  cbn [encodeURIComponent].
  destruct (unreserved c) eqn:Hc; cbn [list_ascii_of_string].
  - constructor; [by left | exact IH].
  - pose proof (nat_ascii_bounded c) as Hb.
    constructor; [by right|].
    constructor; [left; apply upper_hex_unreserved; apply Nat.Div0.div_lt_upper_bound; lia|].
    constructor; [left; apply upper_hex_unreserved; apply Nat.mod_upper_bound; lia|].
    exact IH.
Qed.

(** X15.  The credential is percent-encoded into the URL of the socket: the URL
    is the fixed address, then the token, then the language and the service
    as they are, and every character of the token as it stands in the URL
    is an unreserved one or the percent sign, so the token can add no
    parameter of its own ([&], [=], [#] and the like never appear in it).
    For an [access_token] that is a string the token in the URL is that
    string encoded. *)
Theorem encoded_token_is_url_safe
  (wsToken : value) (language_ : string) (service_ : Service) (wsUrl : string) :
  wsUrl_of P wsToken language_ service_ = Ok wsUrl ->
  exists token,
    wsUrl = "wss://stt.scribemd.ai/v1/listen?access_token=" ++ token
              ++ "&language=" ++ language_ ++ "&service=" ++ Service_name service_
    /\ url_safe token
    /\ (forall s, opt_get wsToken "access_token" = VStr s -> token = encodeURIComponent s).
Proof.
  unfold wsUrl_of, opt_get. destruct (get wsToken "access_token") as [a|]; [|discriminate].
  destruct (ToString (engine P) a) as [s|e] eqn:Hs; [|discriminate].
  intros [= <-]. exists (encodeURIComponent s).
  split; [reflexivity|]. split; [apply encodeURIComponent_safe|].
  intros s' ->. cbn in Hs. by injection Hs as <-.
Qed.

End UrlMore.

(** ** The further properties at the example session *)

Section MoreExamples.
Import JS Client.

Lemma onaudioprocess_sends_or_drops_witness :
  let w := run example_platform initial [Start env_all_succeed] in
  let w1 := run example_platform initial [Start env_all_succeed; WsOpen 0%nat] in
  onaudioprocess 0 [Pcm.f32_one] w = w
  /\ sockets (onaudioprocess 0 [Pcm.f32_one] w1) !! 0%nat
     = Some (Build_WebSocket
               "wss://stt.scribemd.ai/v1/listen?access_token=ws-67844d68&language=en-US&service=deepgram"
               OPEN ([] ++ [Pcm.buffer (Pcm.to_pcm [Pcm.f32_one])])).
Proof.
  cbn zeta. split.
  - apply (proj1 (onaudioprocess_sends_or_drops
                    (run example_platform initial [Start env_all_succeed]) 0
                    (Build_ScriptProcessorNode 0 0 true 0) [Pcm.f32_one] eq_refl)).
    reflexivity.
  - apply (proj1 (proj2 (onaudioprocess_sends_or_drops
                    (run example_platform initial [Start env_all_succeed; WsOpen 0%nat]) 0
                    (Build_ScriptProcessorNode 0 0 true 0) [Pcm.f32_one] eq_refl)
                    (Build_WebSocket
                       "wss://stt.scribemd.ai/v1/listen?access_token=ws-67844d68&language=en-US&service=deepgram"
                       OPEN []) eq_refl eq_refl)).
Defined.

Lemma no_frame_on_closed_socket_witness :
  let w := run example_platform initial [Start env_all_succeed] in
  exists sock',
    sockets (step example_platform w (AudioProcess 0 [Pcm.f32_one])) !! 0%nat = Some sock'
    /\ ws_sent sock' = [].
Proof.
  cbn zeta.
  apply (no_frame_on_closed_socket example_platform
           (run example_platform initial [Start env_all_succeed])
           (AudioProcess 0 [Pcm.f32_one]) 0
           (Build_WebSocket
              "wss://stt.scribemd.ai/v1/listen?access_token=ws-67844d68&language=en-US&service=deepgram"
              CONNECTING []));
    [reflexivity | discriminate].
Defined.

Lemma transcript_append_only_witness :
  let w := set_transcript [VStr "hi"] initial in
  transcript w `prefix_of` transcript (step example_platform w Stop).
Proof.
  cbn zeta.
  apply (transcript_append_only example_platform
           (set_transcript [VStr "hi"] initial) Stop).
  reflexivity.
Defined.

Lemma session_stopped_releases_all_witness :
  let w' := run example_platform initial
              [Start env_all_succeed; WsOpen (length (sockets initial)); Stop] in
  connectionState w' = idle
  /\ audio_released w' = true
  /\ wsRef w' = None
  /\ readyState <$> sockets w' !! length (sockets initial) = Some CLOSING
  /\ contexts w' !! length (contexts initial) = Some closed
  /\ proc_connected <$> processors w' !! length (processors initial) = Some false
  /\ streams w' !! length (streams initial) = Some (replicate 1 ended)
  /\ wsTokenRef w' = example_token.
Proof.
  apply (session_stopped_releases_all example_platform initial env_all_succeed
           example_token 1
           "wss://stt.scribemd.ai/v1/listen?access_token=ws-67844d68&language=en-US&service=deepgram");
    reflexivity.
Defined.

Lemma stale_open_after_stop_witness :
  let w' := run example_platform initial
              [Start env_all_succeed; Stop; WsOpen (length (sockets initial))] in
  connectionState w' = connected
  /\ audio_released w' = true
  /\ wsRef w' = Some (length (sockets initial))
  /\ readyState <$> sockets w' !! length (sockets initial) = Some OPEN.
Proof.
  apply (stale_open_after_stop example_platform initial env_all_succeed
           example_token 1
           "wss://stt.scribemd.ai/v1/listen?access_token=ws-67844d68&language=en-US&service=deepgram");
    reflexivity.
Defined.

Lemma unparsable_expiry_is_reused_witness :
  let w := set_wsTokenRef undated_token initial in
  count_fetches (initializeTranscription example_platform env_all_succeed w)
  = count_fetches w
  /\ wsTokenRef (initializeTranscription example_platform env_all_succeed w)
     = undated_token.
Proof.
  apply (unparsable_expiry_is_reused example_platform
           (set_wsTokenRef undated_token initial) env_all_succeed undated_token "");
    reflexivity.
Defined.

Lemma failed_start_keeps_acquired_witness :
  let w' := initializeTranscription example_platform env_socket_throws initial in
  connectionState w' = error
  /\ audioStreamRef w' = Some (length (streams initial))
  /\ streams w' = streams initial ++ [replicate 1 live]
  /\ wsRef w' = wsRef initial
  /\ sockets w' = sockets initial
  /\ contexts w' = contexts initial
  /\ processors w' = processors initial.
Proof.
  apply (proj2 (failed_start_keeps_acquired example_platform initial env_socket_throws
                  example_token eq_refl) 1%nat
               (mkError "SyntaxError" "The URL is invalid"));
    reflexivity.
Defined.

Lemma encoded_token_is_url_safe_witness :
  exists token,
    "wss://stt.scribemd.ai/v1/listen?access_token=a%26b%3D1&language=en-US&service=aws"%string
    = ("wss://stt.scribemd.ai/v1/listen?access_token=" ++ token
         ++ "&language=" ++ "en-US" ++ "&service=" ++ Service_name aws)%string
    /\ url_safe token
    /\ (forall s, opt_get (VObj [("access_token"%string, VStr "a&b=1")]) "access_token"
                  = VStr s -> token = encodeURIComponent s).
Proof.
  apply (encoded_token_is_url_safe example_platform
           (VObj [("access_token"%string, VStr "a&b=1")]) "en-US" aws).
  reflexivity.
Defined.

Lemma stop_between_awaits_witness :
  let w' := run example_platform initial
              [StartCall 1762829000000; Stop; SetLanguage "fr-FR"; SetService azure;
               TokenSettled 0 (Ok (response_200 example_token));
               MediaSettled 0 (Ok 1%nat) (Ok tt) (Ok tt)] in
  connectionState w' = idle
  /\ wsTokenRef w' = example_token
  /\ wsRef w' = Some 0%nat
  /\ sockets w' !! 0%nat
     = Some (Build_WebSocket
               "wss://stt.scribemd.ai/v1/listen?access_token=ws-67844d68&language=en-US&service=deepgram"
               CONNECTING [])
  /\ audioContextRef w' = Some 0%nat.
Proof.
  pose proof (stop_between_awaits example_platform initial 1762829000000
                (Ok (response_200 example_token)) example_token 1
                "wss://stt.scribemd.ai/v1/listen?access_token=ws-67844d68&language=en-US&service=deepgram"
                "fr-FR" azure eq_refl eq_refl eq_refl)
    as (_ & _ & _ & _ & _ & H1 & _ & _ & H2 & H3 & H4 & _ & _ & H5 & _).
  exact (conj H1 (conj H2 (conj H3 (conj H4 H5)))).
Defined.

Lemma restart_leaks_first_session_witness :
  let first := run example_platform initial
                 [Start env_all_succeed; WsOpen 0%nat; WsClose 0%nat] in
  let w' := run example_platform first [Start env_all_succeed; Stop] in
  connectionState w' = idle
  /\ audio_released w' = true
  /\ contexts w' !! 0%nat = Some running
  /\ contexts w' !! 1%nat = Some closed.
Proof.
  pose proof (restart_leaks_first_session example_platform initial
                env_all_succeed env_all_succeed example_token example_token 1 1
                "wss://stt.scribemd.ai/v1/listen?access_token=ws-67844d68&language=en-US&service=deepgram"
                "wss://stt.scribemd.ai/v1/listen?access_token=ws-67844d68&language=en-US&service=deepgram"
                eq_refl eq_refl eq_refl eq_refl eq_refl
                eq_refl eq_refl eq_refl eq_refl eq_refl)
    as (_ & _ & _ & H1 & H2 & H3 & H4 & _).
  exact (conj H1 (conj H2 (conj H3 H4))).
Defined.

End MoreExamples.
